(** * version-checker: the metrics cache and the Docker Hub digest resolver

    A shallow embedding of [pkg/metrics/metrics.go] and of
    [pkg/client/docker/manifest/manifest.go], with the properties their
    specification states about them. *)

From Stdlib Require Import String Ascii List ZArith NArith Bool Lia.
From Stdlib Require QArith.
From stdpp Require Import base gmap strings list fin_maps.

Local Open Scope string_scope.

(** Go's [float64], for the gauge values [0.0] and [1.0]: rationals. *)
Definition float64 : Type := QArith_base.Q.

(* ===================================================================== *)
(** ** pkg/metrics/metrics.go *)
(* ===================================================================== *)

Module Metrics.

(** [type cacheItem struct] *)
Record cacheItem : Type := {
  image : string;
  currentVersion : string;
  latestVersion : string;
  os : string;
  arch : string;
}.

(** [type Entry struct]: a single metrics label set. *)
Record Entry : Type := {
  Namespace : string;
  Pod : string;
  Container : string;
  ImageURL : string;
  IsLatest : bool;
  CurrentVersion : string;
  LatestVersion : string;
  OS : string;
  Arch : string;
}.

(** [prometheus.Labels] as [buildLabels] makes them: always the eight label
    names the gauge vector is declared with in [New], so a record with one
    field per name. *)
Record Labels : Type := {
  label_namespace : string;
  label_pod : string;
  label_container : string;
  label_image : string;
  label_current_version : string;
  label_latest_version : string;
  label_architecture : string;
  label_os : string;
}.

(** The label values in the order [New] declares the variable labels; a
    [GaugeVec] identifies a child by this list. *)
Definition labelValues (l : Labels) : list string :=
  [ label_namespace l; label_pod l; label_container l; label_image l;
    label_current_version l; label_latest_version l;
    label_architecture l; label_os l ].

Definition labelsOfValues (vs : list string) : option Labels :=
  match vs with
  | [ns; p; c; i; cv; lv; a; o] =>
      Some {| label_namespace := ns; label_pod := p; label_container := c;
              label_image := i; label_current_version := cv;
              label_latest_version := lv; label_architecture := a;
              label_os := o |}
  | _ => None
  end.

#[global] Instance Labels_eq_dec : EqDecision Labels.
Proof. solve_decision. Defined.

#[global] Instance cacheItem_eq_dec : EqDecision cacheItem.
Proof. solve_decision. Defined.

#[global] Instance Entry_eq_dec : EqDecision Entry.
Proof. solve_decision. Defined.

#[global] Instance Labels_countable : Countable Labels.
Proof.
  apply (inj_countable labelValues labelsOfValues).
  intros []; reflexivity.
Defined.

(** [*prometheus.GaugeVec] is the finite map of its children, one gauge value
    per label set: [gmap Labels float64].

    [vec.With(labels).Set(v)] creates the child when it is missing and sets
    its value. *)
Definition GaugeVec_Set (labels : Labels) (v : float64)
  (vec : gmap Labels float64) : gmap Labels float64 := <[labels := v]> vec.

(** [vec.Delete(labels)]; the boolean result is dropped by the caller. *)
Definition GaugeVec_Delete (labels : Labels) (vec : gmap Labels float64)
  : gmap Labels float64 := delete labels vec.

(** [type Metrics struct]: the state [AddImage] and [RemoveImage] read and
    write (the server, the registry handle and the logger play no part). *)
Record Metrics : Type := {
  containerImageVersion : gmap Labels float64;
  containerCache : gmap string cacheItem;
}.

(** [New]: no child registered yet, and an empty cache. *)
Definition New : Metrics :=
  {| containerImageVersion := ∅; containerCache := ∅ |}.

(** [strings.Join([]string{namespace, pod, container}, "")] *)
Definition latestImageIndex (namespace pod container : string) : string :=
  String.concat "" [namespace; pod; container].

Definition buildLabels (entry : Entry) : Labels :=
  {| label_namespace := Namespace entry;
     label_pod := Pod entry;
     label_container := Container entry;
     label_image := ImageURL entry;
     label_current_version := CurrentVersion entry;
     label_latest_version := LatestVersion entry;
     label_architecture := Arch entry;
     label_os := OS entry |}.

(** [RemoveImage]: the whole body runs between [m.mu.Lock()] and the deferred
    [m.mu.Unlock()]. *)
Definition RemoveImage (m : Metrics) (namespace pod container : string)
  : Metrics :=
  let index := latestImageIndex namespace pod container in
  match containerCache m !! index with
  | None => m
  | Some item =>
      {| containerImageVersion :=
           GaugeVec_Delete
             (buildLabels {| Namespace := namespace;
                             Pod := pod;
                             Container := container;
                             ImageURL := image item;
                             IsLatest := false;
                             CurrentVersion := currentVersion item;
                             LatestVersion := latestVersion item;
                             OS := os item;
                             Arch := arch item |})
             (containerImageVersion m);
         containerCache := delete index (containerCache m) |}
  end.

(** The part of [AddImage] after its own [m.mu.Lock()] (lines 111-130). *)
Definition AddImage_locked (m : Metrics) (entry : Entry) : Metrics :=
  let isLatestF : float64 :=
    if IsLatest entry then QArith_base.Qmake 1 1 else QArith_base.Qmake 0 1 in
  let index :=
    latestImageIndex (Namespace entry) (Pod entry) (Container entry) in
  {| containerImageVersion :=
       GaugeVec_Set (buildLabels entry) isLatestF (containerImageVersion m);
     containerCache :=
       <[index := {| image := ImageURL entry;
                     currentVersion := CurrentVersion entry;
                     latestVersion := LatestVersion entry;
                     os := OS entry;
                     arch := Arch entry |}]> (containerCache m) |}.

(** [AddImage] run on its own: [RemoveImage] first (which takes and releases
    the lock), then the locked part. *)
Definition AddImage (m : Metrics) (entry : Entry) : Metrics :=
  AddImage_locked
    (RemoveImage m (Namespace entry) (Pod entry) (Container entry)) entry.

(** *** Sequences of calls, and the series of one container *)

Inductive Op : Type :=
| OpAddImage (entry : Entry)
| OpRemoveImage (namespace pod container : string).

Definition applyOp (m : Metrics) (o : Op) : Metrics :=
  match o with
  | OpAddImage entry => AddImage m entry
  | OpRemoveImage namespace pod container =>
      RemoveImage m namespace pod container
  end.

Definition runOps (ops : list Op) (m : Metrics) : Metrics :=
  fold_left applyOp ops m.

(** A Monitored Identity: namespace, pod, container. *)
Definition Identity : Type := string * string * string.

Definition identityOfLabels (l : Labels) : Identity :=
  (label_namespace l, label_pod l, label_container l).

Definition identityOfEntry (e : Entry) : Identity :=
  (Namespace e, Pod e, Container e).

Definition identityOfOp (o : Op) : Identity :=
  match o with
  | OpAddImage entry => identityOfEntry entry
  | OpRemoveImage namespace pod container => (namespace, pod, container)
  end.

Definition indexOf (i : Identity) : string :=
  latestImageIndex i.1.1 i.1.2 i.2.

(** The exported series of one identity: the children of the gauge vector
    whose first three labels are that identity. *)
Definition seriesOf (i : Identity) (vec : gmap Labels float64)
  : gmap Labels float64 :=
  filter (λ kv, identityOfLabels kv.1 = i) vec.

(** *** Concurrent callers

    [sync.Mutex] and the goroutines calling into one [*Metrics]: a call is a
    list of instructions, each lock-delimited region one [Critical] step on
    the shared state. *)

Inductive instr : Type :=
| Lock
| Unlock
| Critical (f : Metrics → Metrics).

(** [RemoveImage]: [m.mu.Lock()], the body, the deferred [m.mu.Unlock()]. *)
Definition RemoveImage_code (namespace pod container : string) : list instr :=
  [Lock; Critical (λ m, RemoveImage m namespace pod container); Unlock].

(** [AddImage]: the call of [RemoveImage] comes before [m.mu.Lock()]. *)
Definition AddImage_code (entry : Entry) : list instr :=
  RemoveImage_code (Namespace entry) (Pod entry) (Container entry)
  ++ [Lock; Critical (λ m, AddImage_locked m entry); Unlock].

Record Config : Type := {
  shared : Metrics;
  mu : bool;
  goroutines : list (list instr);
}.

(** One step of goroutine [t]: [Lock] waits ([None]: no step) while the
    mutex is held; [Unlock] of a free mutex is a fatal error in Go and no
    caller here does it. *)
Definition stepOf (t : nat) (c : Config) : option Config :=
  match goroutines c !! t with
  | Some (Lock :: k) =>
      if mu c then None
      else Some {| shared := shared c; mu := true;
                   goroutines := <[t := k]> (goroutines c) |}
  | Some (Unlock :: k) =>
      if mu c
      then Some {| shared := shared c; mu := false;
                   goroutines := <[t := k]> (goroutines c) |}
      else None
  | Some (Critical f :: k) =>
      Some {| shared := f (shared c); mu := mu c;
              goroutines := <[t := k]> (goroutines c) |}
  | Some [] | None => None
  end.

(** A schedule names the goroutine that steps next. *)
Fixpoint runSchedule (sched : list nat) (c : Config) : option Config :=
  match sched with
  | [] => Some c
  | t :: sched' =>
      match stepOf t c with
      | Some c' => runSchedule sched' c'
      | None => None
      end
  end.

Definition spawn (m : Metrics) (calls : list (list instr)) : Config :=
  {| shared := m; mu := false; goroutines := calls |}.

Definition finished (c : Config) : bool :=
  negb (mu c) && forallb (λ k, match k with [] => true | _ => false end)
                         (goroutines c).

End Metrics.

(* ===================================================================== *)
(** ** The parts of Go's library the Docker client is built on *)
(* ===================================================================== *)

Module GoStrings.

(** The byte [c] as Go's [rune(c)] / [int]. *)
Definition byteZ (c : ascii) : Z := Z.of_N (N_of_ascii c).

Definition byteOfZ (n : Z) : ascii := ascii_of_N (Z.to_N n).

Definition bytesOf (s : string) : list Z := map byteZ (list_ascii_of_string s).

(** The double quote, which a string literal here cannot hold. *)
Definition dquote : ascii := "034"%char.

(** [table[n]] for the digit tables of [strconv], [net/url] and
    [encoding/base64]. *)
Definition digitOf (table : string) (n : Z) : ascii :=
  default "0"%char (String.get (Z.to_nat n) table).

Definition lowerhex : string := "0123456789abcdef".
Definition upperhex : string := "0123456789ABCDEF".

Definition inRange (lo hi c : ascii) : bool :=
  (lo <=? c)%char && (c <=? hi)%char.

Definition isAlnum (c : ascii) : bool :=
  inRange "a" "z" c || inRange "A" "Z" c || inRange "0" "9" c.

Fixpoint memChar (c : ascii) (s : string) : bool :=
  match s with
  | EmptyString => false
  | String d s' => Ascii.eqb c d || memChar c s'
  end.

(** [strings.Contains(s, substr)] *)
Fixpoint Contains (s substr : string) : bool :=
  String.prefix substr s
  || match s with
     | EmptyString => false
     | String _ s' => Contains s' substr
     end.

(** *** net/url: [QueryEscape], [Values] *)

(** [shouldEscape(c, encodeQueryComponent)]: everything but the unreserved
    characters. *)
Definition shouldEscape (c : ascii) : bool :=
  negb (isAlnum c || memChar c "-_.~").

(** [url.QueryEscape] *)
Fixpoint QueryEscape (s : string) : string :=
  match s with
  | EmptyString => EmptyString
  | String c s' =>
      if Ascii.eqb c " " then String "+" (QueryEscape s')
      else if shouldEscape c
      then String "%" (String (digitOf upperhex (Z.shiftr (byteZ c) 4))
                      (String (digitOf upperhex (Z.land (byteZ c) 15))
                              (QueryEscape s')))
      else String c (QueryEscape s')
  end.

(** [url.Values], a [map[string][]string]: the keys of the list are
    distinct. *)
Definition Values : Type := list (string * list string).

(** [v.Set(key, value)] *)
Fixpoint Values_Set (v : Values) (key value : string) : Values :=
  match v with
  | [] => [(key, [value])]
  | (k, vs) :: v' =>
      if String.eqb k key then (key, [value]) :: v'
      else (k, vs) :: Values_Set v' key value
  end.

(** [sort.Strings] on the keys, by insertion. *)
Fixpoint insertSorted (kv : string * list string) (v : Values) : Values :=
  match v with
  | [] => [kv]
  | kv' :: v' =>
      if String.leb kv.1 kv'.1 then kv :: kv' :: v'
      else kv' :: insertSorted kv v'
  end.

Definition sortedByKey (v : Values) : Values :=
  fold_right insertSorted [] v.

(** [v.Encode()]: ["key=value"] pairs, both escaped, joined by ["&"], the
    keys in sorted order. *)
Definition Values_Encode (v : Values) : string :=
  String.concat "&"
    (flat_map (λ kv, map (λ value, QueryEscape kv.1 ++ "=" ++ QueryEscape value)
                         kv.2)
              (sortedByKey v)).

(** The receiving side: [url.QueryUnescape] and [url.ParseQuery], which
    turn the query string of a request back into its [Values]. *)

(** [unhex], on the bytes [ishex] accepts. *)
Definition unhex (c : ascii) : option Z :=
  if inRange "0" "9" c then Some (byteZ c - byteZ "0")%Z
  else if inRange "a" "f" c then Some (byteZ c - byteZ "a" + 10)%Z
  else if inRange "A" "F" c then Some (byteZ c - byteZ "A" + 10)%Z
  else None.

(** [url.QueryUnescape]; [None] is its [EscapeError]. *)
Fixpoint QueryUnescape (s : string) : option string :=
  match s with
  | EmptyString => Some EmptyString
  | String c s' =>
      if Ascii.eqb c "%" then
        match s' with
        | String h1 (String h2 s'') =>
            match unhex h1, unhex h2 with
            | Some a, Some b =>
                option_map (String (byteOfZ (Z.lor (Z.shiftl a 4) b)))
                           (QueryUnescape s'')
            | _, _ => None
            end
        | _ => None
        end
      else if Ascii.eqb c "+" then option_map (String " ") (QueryUnescape s')
      else option_map (String c) (QueryUnescape s')
  end.

(** [strings.Split(s, sep)] for a one-byte separator. *)
Fixpoint splitOn (sep : ascii) (s : string) : list string :=
  match s with
  | EmptyString => [EmptyString]
  | String c s' =>
      if Ascii.eqb c sep then EmptyString :: splitOn sep s'
      else match splitOn sep s' with
           | piece :: pieces => String c piece :: pieces
           | [] => [String c EmptyString]
           end
  end.

(** The text before and after the first [sep], when there is one. *)
Fixpoint cut (sep : ascii) (s : string) : option (string * string) :=
  match s with
  | EmptyString => None
  | String c s' =>
      if Ascii.eqb c sep then Some (EmptyString, s')
      else match cut sep s' with
           | Some (before, after) => Some (String c before, after)
           | None => None
           end
  end.

(** [v.Add(key, value)] *)
Fixpoint Values_Add (v : Values) (key value : string) : Values :=
  match v with
  | [] => [(key, [value])]
  | (k, vs) :: v' =>
      if String.eqb k key then (k, (vs ++ [value])%list) :: v'
      else (k, vs) :: Values_Add v' key value
  end.

(** [v.Get(key)]: the first value of the key, or the empty string. *)
Fixpoint Values_Get (v : Values) (key : string) : string :=
  match v with
  | [] => EmptyString
  | (k, vs) :: v' =>
      if String.eqb k key then hd EmptyString vs else Values_Get v' key
  end.

(** [url.ParseQuery]: the pairs between ["&"], each cut at its first ["="]
    and unescaped; a pair that does not unescape is left out. *)
Definition ParseQuery (query : string) : Values :=
  fold_left
    (λ m piece,
       if String.eqb piece "" then m
       else
         let '(key, value) := default (piece, EmptyString) (cut "=" piece) in
         match QueryUnescape key, QueryUnescape value with
         | Some key, Some value => Values_Add m key value
         | _, _ => m
         end)
    (splitOn "&" query) [].

(** *** encoding/base64: [StdEncoding.EncodeToString] *)

Definition encodeStd : string :=
  "ABCDEFGHIJKLMNOPQRSTUVWXYZabcdefghijklmnopqrstuvwxyz0123456789+/".

Fixpoint base64Loop (src : list Z) : string :=
  match src with
  | [] => EmptyString
  | [a] =>
      let val := Z.shiftl a 16 in
      String (digitOf encodeStd (Z.land (Z.shiftr val 18) 63))
        (String (digitOf encodeStd (Z.land (Z.shiftr val 12) 63)) "==")
  | [a; b] =>
      let val := Z.lor (Z.shiftl a 16) (Z.shiftl b 8) in
      String (digitOf encodeStd (Z.land (Z.shiftr val 18) 63))
        (String (digitOf encodeStd (Z.land (Z.shiftr val 12) 63))
          (String (digitOf encodeStd (Z.land (Z.shiftr val 6) 63)) "="))
  | a :: b :: c :: src' =>
      let val := Z.lor (Z.lor (Z.shiftl a 16) (Z.shiftl b 8)) c in
      String (digitOf encodeStd (Z.land (Z.shiftr val 18) 63))
        (String (digitOf encodeStd (Z.land (Z.shiftr val 12) 63))
          (String (digitOf encodeStd (Z.land (Z.shiftr val 6) 63))
            (String (digitOf encodeStd (Z.land val 63))
                    (base64Loop src'))))
  end.

Definition EncodeToString (src : string) : string := base64Loop (bytesOf src).

(** *** unicode/utf8 and strconv: [Quote], the [%q] verb of [fmt] *)

Definition RuneError : Z := 0xFFFD.
Definition MaxRune : Z := 0x10FFFF.

Definition isCont (b : Z) : bool := (0x80 <=? b)%Z && (b <=? 0xBF)%Z.

(** [utf8.DecodeRune]: the rune at the head of [p] and its width in bytes;
    [(RuneError, 1)] for an encoding that is not valid UTF-8. *)
Definition DecodeRune (p : list Z) : Z * nat :=
  match p with
  | [] => (RuneError, 0%nat)
  | b0 :: p1 =>
      if (b0 <? 0x80)%Z then (b0, 1%nat)
      else if (b0 <? 0xC2)%Z || (0xF4 <? b0)%Z then (RuneError, 1%nat)
      else
        let lo := if (b0 =? 0xE0)%Z then 0xA0%Z
                  else if (b0 =? 0xF0)%Z then 0x90%Z else 0x80%Z in
        let hi := if (b0 =? 0xED)%Z then 0x9F%Z
                  else if (b0 =? 0xF4)%Z then 0x8F%Z else 0xBF%Z in
        match p1 with
        | [] => (RuneError, 1%nat)
        | b1 :: p2 =>
            if negb ((lo <=? b1)%Z && (b1 <=? hi)%Z) then (RuneError, 1%nat)
            else if (b0 <? 0xE0)%Z
            then (Z.lor (Z.shiftl (Z.land b0 0x1F) 6) (Z.land b1 0x3F), 2%nat)
            else
              match p2 with
              | [] => (RuneError, 1%nat)
              | b2 :: p3 =>
                  if negb (isCont b2) then (RuneError, 1%nat)
                  else if (b0 <? 0xF0)%Z
                  then (Z.lor (Z.shiftl (Z.land b0 0x0F) 12)
                          (Z.lor (Z.shiftl (Z.land b1 0x3F) 6)
                                 (Z.land b2 0x3F)), 3%nat)
                  else
                    match p3 with
                    | [] => (RuneError, 1%nat)
                    | b3 :: _ =>
                        if negb (isCont b3) then (RuneError, 1%nat)
                        else (Z.lor (Z.shiftl (Z.land b0 0x07) 18)
                                (Z.lor (Z.shiftl (Z.land b1 0x3F) 12)
                                   (Z.lor (Z.shiftl (Z.land b2 0x3F) 6)
                                          (Z.land b3 0x3F))), 4%nat)
                    end
              end
        end
  end.

(** [s[:n]] *)
Fixpoint firstBytes (n : nat) (s : string) : string :=
  match n with
  | O => EmptyString
  | S n' =>
      match s with
      | EmptyString => EmptyString
      | String c s' => String c (firstBytes n' s')
      end
  end.

(** [r >> shift & 0xF] as a hexadecimal digit. *)
Definition hexAt (r shift : Z) : ascii :=
  digitOf lowerhex (Z.land (Z.shiftr r shift) 0xF).

Section Quote.

(** [strconv.IsPrint] above Latin-1 is a table lookup; the tables are the
    Go library's. *)
Variable isPrintTable : Z → bool.

(** [strconv.IsPrint] *)
Definition IsPrint (r : Z) : bool :=
  if (r <=? 0xFF)%Z then
    if (0x20 <=? r)%Z && (r <=? 0x7E)%Z then true
    else if (0xA1 <=? r)%Z && (r <=? 0xFF)%Z then negb (r =? 0xAD)%Z
    else false
  else isPrintTable r.

(** [strconv.appendEscapedRune] for [Quote] (double-quote delimiter, neither
    ASCII-only nor graphic-only), as of the Go release of [go.mod]; [raw] is the
    UTF-8 encoding of [r], which [utf8.EncodeRune] gives back. *)
Definition appendEscapedRune (r : Z) (raw : string) : string :=
  if (r =? byteZ dquote)%Z || (r =? byteZ "\")%Z
  then String "\" (String (byteOfZ r) EmptyString)
  else if IsPrint r then raw
  else if (r =? 7)%Z then "\a"
  else if (r =? 8)%Z then "\b"
  else if (r =? 12)%Z then "\f"
  else if (r =? 10)%Z then "\n"
  else if (r =? 13)%Z then "\r"
  else if (r =? 9)%Z then "\t"
  else if (r =? 11)%Z then "\v"
  else if (r <? 0x20)%Z
  then String "\" (String "x" (String (hexAt r 4) (String (hexAt r 0) "")))
  else
    let r := if (MaxRune <? r)%Z then RuneError else r in
    if (r <? 0x10000)%Z
    then String "\" (String "u"
           (string_of_list_ascii (map (hexAt r) [12; 8; 4; 0]%Z)))
    else String "\" (String "U"
           (string_of_list_ascii
              (map (hexAt r) [28; 24; 20; 16; 12; 8; 4; 0]%Z))).

(** The loop of [strconv.appendQuotedWith]: [skip] counts the bytes of
    the rune just written that are still ahead in [s]. *)
Fixpoint quoteLoop (skip : nat) (s : string) : string :=
  match s with
  | EmptyString => EmptyString
  | String c s' =>
      match skip with
      | S skip' => quoteLoop skip' s'
      | O =>
          let '(r, width) := DecodeRune (bytesOf s) in
          if (width =? 1)%nat && (r =? RuneError)%Z
          then String "\" (String "x"
                 (String (hexAt (byteZ c) 4) (String (hexAt (byteZ c) 0)
                    (quoteLoop 0 s'))))
          else appendEscapedRune r (firstBytes width s)
               ++ quoteLoop (width - 1) s'
      end
  end.

(** [strconv.Quote], what [%q] prints for a string. *)
Definition Quote (s : string) : string :=
  String dquote (quoteLoop 0 s ++ String dquote EmptyString).

End Quote.

(** *** net/textproto and net/http: header keys *)

(** [validHeaderFieldByte]: the token characters of RFC 7230. *)
Definition validHeaderFieldByte (c : ascii) : bool :=
  isAlnum c || memChar c "!#$%&'*+-.^_`|~".

Definition toUpper (c : ascii) : ascii :=
  if inRange "a" "z" c then byteOfZ (byteZ c - 32) else c.

Definition toLower (c : ascii) : ascii :=
  if inRange "A" "Z" c then byteOfZ (byteZ c + 32) else c.

Fixpoint canonicalLoop (upper : bool) (s : string) : string :=
  match s with
  | EmptyString => EmptyString
  | String c s' =>
      String (if upper then toUpper c else toLower c)
             (canonicalLoop (Ascii.eqb c "-") s')
  end.

(** [textproto.CanonicalMIMEHeaderKey]: a key with a byte that is not a
    token character is returned as it is. *)
Definition CanonicalMIMEHeaderKey (s : string) : string :=
  if forallb validHeaderFieldByte (list_ascii_of_string s)
  then canonicalLoop true s else s.

End GoStrings.

(* ===================================================================== *)
(** ** pkg/client/docker/manifest/manifest.go *)
(* ===================================================================== *)

Module Docker.
Import GoStrings.

(** A Go [error], by its message ([errors.New], [fmt.Errorf]). *)
Inductive error : Type := errorString (msg : string).

Definition Error (e : error) : string :=
  match e with errorString msg => msg end.

(** [http.Header], a [map[string][]string] under canonical keys. *)
Definition Header_Get (h : gmap string (list string)) (key : string) : string :=
  match h !! CanonicalMIMEHeaderKey key with
  | Some (v :: _) => v
  | _ => EmptyString
  end.

Definition Header_Add (h : gmap string (list string)) (key value : string)
  : gmap string (list string) :=
  <[CanonicalMIMEHeaderKey key :=
      (default [] (h !! CanonicalMIMEHeaderKey key) ++ [value])%list]> h.

Definition Header_Set (h : gmap string (list string)) (key value : string)
  : gmap string (list string) :=
  <[CanonicalMIMEHeaderKey key := [value]]> h.

Module Request.
(** [*http.Request]: what the two calls set (the context rides along and
    reaches only the transport). *)
Record t : Type := {
  Method : string;
  URL : string;
  Header : gmap string (list string);
}.
End Request.

Module Response.
(** [*http.Response]; [Body] is what [ioutil.ReadAll(resp.Body)] gives. *)
Record t : Type := {
  Status : string;
  StatusCode : Z;
  Header : gmap string (list string);
  Body : string + error;
}.
End Response.

(** A computation that calls [c.Client.Do]: its result, or a request and
    what to do with the transport's answer. *)
Inductive Prog (A : Type) : Type :=
| Ret (a : A)
| Do (req : Request.t) (k : Response.t + error → Prog A).
Arguments Ret {A} a.
Arguments Do {A} req k.

Fixpoint bind {A B : Type} (p : Prog A) (f : A → Prog B) : Prog B :=
  match p with
  | Ret a => f a
  | Do req k => Do req (λ r, bind (k r) f)
  end.

(** The network and the registry: an answer to each request, and a state
    [W] of their own. *)
Definition Transport (W : Type) : Type :=
  Request.t → W → (Response.t + error) * W.

(** Run [p] against a transport: the result, the exchanges in order, and
    the transport's final state. *)
Fixpoint exec {W A : Type} (h : Transport W) (p : Prog A) (w : W)
  : A * list (Request.t * (Response.t + error)) * W :=
  match p with
  | Ret a => (a, [], w)
  | Do req k =>
      let '(r, w1) := h req w in
      let '(a, exchanges, w2) := exec h (k r) w1 in
      (a, (req, r) :: exchanges, w2)
  end.

Definition tokenURL : string := "https://auth.docker.io/token".

(** [fmt.Sprintf(manifestURL, repo, image, tag)] with
    [manifestURL = "https://registry.hub.docker.com/v2/%s/%s/manifests/%s"] *)
Definition manifestURL (repo image tag : string) : string :=
  "https://registry.hub.docker.com/v2/" ++ repo ++ "/" ++ image
  ++ "/manifests/" ++ tag.

Record Options : Type := {
  Username : string;
  Password : string;
}.

Record AuthResponse : Type := {
  Token : string;
}.

(** [type ManifestClient struct]: the embedded [Options]; the embedded
    [*http.Client] is the transport [exec] runs against. *)
Record ManifestClient : Type := {
  ClientOptions : Options;
}.

Definition New (options : Options) : ManifestClient * option error :=
  ({| ClientOptions := options |}, None).

(** What the code takes from Go's library and this file does not define. *)
Class GoLib : Type := {
  (** the tables of [strconv.IsPrint] above Latin-1 *)
  strconv_isPrintTable : Z → bool;
  (** the error of [url.Parse] on a URL, which [http.NewRequest] returns *)
  url_Parse_error : string → option error;
  (** [json.Unmarshal(body, response)] into a new [AuthResponse] *)
  json_Unmarshal : string → AuthResponse + error;
}.

Section Client.
Context {lib : GoLib}.

(** [http.NewRequest(method, url, nil)], for the valid methods used. *)
Definition http_NewRequest (method url : string) : Request.t + error :=
  match url_Parse_error url with
  | Some err => inr err
  | None => inl {| Request.Method := method; Request.URL := url;
                   Request.Header := ∅ |}
  end.

(** [authUrl]: [url.Parse(tokenURL)] succeeds on that constant, and its
    [Query()] is empty; [u.String()] puts ["?"] and the encoded query
    after it. *)
Definition authUrl (repo image : string) : string * option error :=
  let scope := "repository:" ++ repo ++ "/" ++ image ++ ":pull" in
  let q : Values := [] in
  let q := Values_Set q "service" "registry.docker.io" in
  let q := Values_Set q "scope" scope in
  (tokenURL ++ "?" ++ Values_Encode q, None).

Definition getAuthToken (c : ManifestClient) (repo image : string)
  : Prog (string * option error) :=
  match authUrl repo image with
  | (_, Some err) => Ret (EmptyString, Some err)
  | (url, None) =>
      match http_NewRequest "GET" url with
      | inr err => Ret (EmptyString, Some err)
      | inl req =>
          let req :=
            if negb (String.eqb (Username (ClientOptions c)) "")
               && negb (String.eqb (Password (ClientOptions c)) "")
            then
              let ba := Username (ClientOptions c) ++ ":"
                        ++ Password (ClientOptions c) in
              {| Request.Method := Request.Method req;
                 Request.URL := Request.URL req;
                 Request.Header :=
                   Header_Set (Request.Header req) "Authorization"
                              ("Basic " ++ EncodeToString ba) |}
            else req in
          Do req (λ r,
            match r with
            | inr err => Ret (EmptyString, Some err)
            | inl resp =>
                match Response.Body resp with
                | inr err => Ret (EmptyString, Some err)
                | inl body =>
                    if negb (Response.StatusCode resp =? 200)%Z
                    then Ret (EmptyString, Some (errorString body))
                    else
                      match json_Unmarshal body with
                      | inr err => Ret (EmptyString, Some err)
                      | inl response => Ret (Token response, None)
                      end
                end
            end)
      end
  end.

Definition Digest (c : ManifestClient) (repo image tag : string)
  : Prog (string * option error) :=
  bind (getAuthToken c repo image) (λ '(token, err),
  match err with
  | Some err => Ret (EmptyString, Some err)
  | None =>
      let url := manifestURL repo image tag in
      match http_NewRequest "HEAD" url with
      | inr err => Ret (EmptyString, Some err)
      | inl req =>
          let header := Request.Header req in
          let header := Header_Add header "Authorization" ("Bearer " ++ token) in
          let header :=
            Header_Add header "Accept"
              "application/vnd.docker.distribution.manifest.v2+json" in
          let header :=
            Header_Add header "Accept"
              "application/vnd.docker.distribution.manifest.list.v2+json" in
          let header :=
            Header_Add header "Accept"
              "application/vnd.docker.distribution.manifest.v1+json" in
          let req := {| Request.Method := Request.Method req;
                        Request.URL := Request.URL req;
                        Request.Header := header |} in
          Do req (λ r,
            match r with
            | inr err =>
                Ret (EmptyString,
                     Some (errorString ("failed to get docker manifest: "
                                        ++ Error err)))
            | inl res =>
                if negb (Response.StatusCode res =? 200)%Z
                then
                  let wwwAuthHeader :=
                    Header_Get (Response.Header res) "www-authenticate" in
                  let wwwAuthHeader :=
                    if String.eqb wwwAuthHeader "" then "not present"
                    else wwwAuthHeader in
                  Ret (EmptyString,
                       Some (errorString
                         ("registry responded to head request to " ++ url
                          ++ " with "
                          ++ Quote strconv_isPrintTable (Response.Status res)
                          ++ ", auth: "
                          ++ Quote strconv_isPrintTable wwwAuthHeader)))
                else
                  Ret (Header_Get (Response.Header res)
                                  "Docker-Content-Digest", None)
            end)
      end
  end).

End Client.

End Docker.

(* ===================================================================== *)
(** ** package util: joining names, and the OS and architecture of a tag *)
(* ===================================================================== *)

Module Util.
Import GoStrings.

Definition oss : list string := ["linux"; "darwin"; "windows"; "freebsd"].

Definition archs : list string :=
  [ "amd"; "amd64"; "arm"; "arm64"; "arm32v5"; "arm32v6"; "arm32v7";
    "arm64v8"; "i386"; "ppc64"; "ppc64le"; "s390x"; "x86"; "x86_64"; "mips" ].

(** Join repo and image strings. *)
Definition JoinRepoImage (repo image : string) : string :=
  if (String.length repo =? 0)%nat then image
  else if (String.length image =? 0)%nat then repo
  else repo ++ "/" ++ image.

(** [utf8.EncodeRune]: a surrogate or a value above [MaxRune] is encoded as
    [RuneError]. *)
Definition EncodeRune (r : Z) : string :=
  let three (r : Z) :=
    String (byteOfZ (Z.lor 0xE0 (Z.shiftr r 12)))
      (String (byteOfZ (Z.lor 0x80 (Z.land (Z.shiftr r 6) 0x3F)))
        (String (byteOfZ (Z.lor 0x80 (Z.land r 0x3F))) EmptyString)) in
  if (0 <=? r)%Z && (r <=? 0x7F)%Z then String (byteOfZ r) EmptyString
  else if (0 <=? r)%Z && (r <=? 0x7FF)%Z
  then String (byteOfZ (Z.lor 0xC0 (Z.shiftr r 6)))
         (String (byteOfZ (Z.lor 0x80 (Z.land r 0x3F))) EmptyString)
  else if (r <? 0)%Z || (MaxRune <? r)%Z
          || ((0xD800 <=? r)%Z && (r <=? 0xDFFF)%Z)
  then three RuneError
  else if (r <=? 0xFFFF)%Z then three r
  else String (byteOfZ (Z.lor 0xF0 (Z.shiftr r 18)))
         (String (byteOfZ (Z.lor 0x80 (Z.land (Z.shiftr r 12) 0x3F)))
           (String (byteOfZ (Z.lor 0x80 (Z.land (Z.shiftr r 6) 0x3F)))
             (String (byteOfZ (Z.lor 0x80 (Z.land r 0x3F))) EmptyString))).

Section Lower.

(** [unicode.ToLower] above ASCII is a table lookup; the tables are the Go
    library's. *)
Variable toLowerTable : Z → Z.

(** [unicode.ToLower] *)
Definition unicode_ToLower (r : Z) : Z :=
  if (r <=? 0x7F)%Z
  then if (byteZ "A" <=? r)%Z && (r <=? byteZ "Z")%Z then (r + 32)%Z else r
  else toLowerTable r.

(** [strings.Map(mapping, s)]: every rune of [s] (a byte that is no valid
    UTF-8 counts as [RuneError]) is replaced by the encoding of its image,
    or dropped when the image is negative; [skip] counts the bytes of the
    rune just read that are still ahead. A rune that is left as it is has
    its own bytes as encoding. *)
Fixpoint mapLoop (mapping : Z → Z) (skip : nat) (s : string) : string :=
  match s with
  | EmptyString => EmptyString
  | String c s' =>
      match skip with
      | S skip' => mapLoop mapping skip' s'
      | O =>
          let '(r, width) := DecodeRune (bytesOf s) in
          (if (0 <=? mapping r)%Z then EncodeRune (mapping r) else EmptyString)
          ++ mapLoop mapping (width - 1) s'
      end
  end.

Fixpoint lowerBytes (s : string) : string :=
  match s with
  | EmptyString => EmptyString
  | String c s' => String (toLower c) (lowerBytes s')
  end.

(** [strings.ToLower]: the ASCII-only path, and [Map(unicode.ToLower, s)]
    for the rest. *)
Definition ToLower (s : string) : string :=
  let isASCII := forallb (λ c, (byteZ c <? 0x80)%Z) (list_ascii_of_string s) in
  let hasUpper := existsb (inRange "A" "Z") (list_ascii_of_string s) in
  if isASCII
  then if hasUpper then lowerBytes s else s
  else mapLoop unicode_ToLower 0 s.

(** Attempt to determine the OS and Arch, given a tag name. *)
Definition OSArchFromTag (tag : string) : string * string :=
  fold_left
    (λ '(os, arch) s,
       let ss := ToLower s in
       let os :=
         fold_left (λ os pos, if String.eqb pos ss then pos else os) oss os in
       let arch :=
         fold_left (λ arch parch, if String.eqb parch ss then parch else arch)
                   archs arch in
       (os, arch))
    (splitOn "-" tag) (EmptyString, EmptyString).

End Lower.

End Util.

(* ===================================================================== *)
(** ** Properties of the metrics cache *)
(* ===================================================================== *)

Module MetricsFacts.
Import Metrics.

Definition itemOfEntry (e : Entry) : cacheItem :=
  {| image := ImageURL e; currentVersion := CurrentVersion e;
     latestVersion := LatestVersion e; os := OS e; arch := Arch e |}.


(** The label set [RemoveImage] deletes for a cached item. *)
Definition labelsOfItem (i : Identity) (item : cacheItem) : Labels :=
  {| label_namespace := i.1.1; label_pod := i.1.2; label_container := i.2;
     label_image := image item;
     label_current_version := currentVersion item;
     label_latest_version := latestVersion item;
     label_architecture := arch item; label_os := os item |}.

Lemma labelsOfItem_entry (e : Entry) :
  labelsOfItem (identityOfEntry e) (itemOfEntry e) = buildLabels e.
Proof. reflexivity. Qed.

Lemma identityOf_buildLabels (e : Entry) :
  identityOfLabels (buildLabels e) = identityOfEntry e.
Proof. reflexivity. Qed.

Lemma RemoveImage_absent (m : Metrics) (namespace pod container : string) :
  containerCache m !! latestImageIndex namespace pod container = None →
  RemoveImage m namespace pod container = m.
Proof. intros H. unfold RemoveImage. now rewrite H. Qed.

Lemma RemoveImage_present (m : Metrics) (namespace pod container : string)
  (item : cacheItem) :
  containerCache m !! latestImageIndex namespace pod container = Some item →
  RemoveImage m namespace pod container =
    {| containerImageVersion :=
         delete (labelsOfItem (namespace, pod, container) item)
                (containerImageVersion m);
       containerCache :=
         delete (latestImageIndex namespace pod container)
                (containerCache m) |}.
Proof. intros H. unfold RemoveImage. now rewrite H. Qed.

Lemma RemoveImage_cache (m : Metrics) (namespace pod container : string) :
  containerCache (RemoveImage m namespace pod container)
  = delete (latestImageIndex namespace pod container) (containerCache m).
Proof.
  unfold RemoveImage.
  destruct (containerCache m !! _) eqn:E; simpl; [done|].
  symmetry. now apply delete_id.
Qed.

Lemma AddImage_cache (m : Metrics) (e : Entry) :
  containerCache (AddImage m e)
  = <[indexOf (identityOfEntry e) := itemOfEntry e]> (containerCache m).
Proof.
  unfold AddImage, AddImage_locked; simpl.
  rewrite RemoveImage_cache. apply insert_delete_eq.
Qed.



(** C8. Two different identities share one cache key: the key is the three
    components with nothing between them. *)
Theorem latestImageIndex_aliases :
  ∃ i j : Identity, i ≠ j ∧ indexOf i = indexOf j
    ∧ latestImageIndex i.1.1 i.1.2 i.2 = latestImageIndex j.1.1 j.1.2 j.2.
Proof.
  exists ("ab", "c", "x"), ("a", "bc", "x").
  split; [discriminate|]. split; reflexivity.
Qed.

(** C3. [AddImage e] then [RemoveImage] of [e]'s identity, from any state:
    no series with [e]'s label set is exported and the cache has no entry
    under the identity's key; when the state before had neither, it is the
    state afterwards, and on a fresh [Metrics] that is the fresh state. *)
Theorem AddImage_RemoveImage_roundtrip (m : Metrics) (e : Entry) :
  let m' := RemoveImage (AddImage m e) (Namespace e) (Pod e) (Container e) in
  containerImageVersion m' !! buildLabels e = None
  ∧ containerCache m' !!
      latestImageIndex (Namespace e) (Pod e) (Container e) = None
  ∧ (containerCache m !!
       latestImageIndex (Namespace e) (Pod e) (Container e) = None →
     containerImageVersion m !! buildLabels e = None → m' = m)
  ∧ RemoveImage (AddImage New e) (Namespace e) (Pod e) (Container e) = New.
Proof.
  assert (Hstep : ∀ m0,
    RemoveImage (AddImage m0 e) (Namespace e) (Pod e) (Container e)
    = {| containerImageVersion :=
           delete (buildLabels e)
             (containerImageVersion
                (RemoveImage m0 (Namespace e) (Pod e) (Container e)));
         containerCache :=
           delete (latestImageIndex (Namespace e) (Pod e) (Container e))
                  (containerCache m0) |}).
  { intros m0.
    rewrite (RemoveImage_present _ _ _ _ (itemOfEntry e)).
    - rewrite AddImage_cache. unfold indexOf; simpl.
      rewrite delete_insert_eq. f_equal.
      unfold AddImage, AddImage_locked, GaugeVec_Set; simpl.
      change (labelsOfItem (Namespace e, Pod e, Container e) (itemOfEntry e))
        with (buildLabels e).
      apply delete_insert_eq.
    - rewrite AddImage_cache. apply lookup_insert_eq. }
  intros m'. subst m'. rewrite Hstep; simpl.
  repeat split.
  - apply lookup_delete_eq.
  - apply lookup_delete_eq.
  - intros Hc Hv. rewrite (RemoveImage_absent _ _ _ _ Hc).
    destruct m as [vec cache]; simpl in *.
    f_equal; now apply delete_id.
  - rewrite Hstep. reflexivity.
Qed.

Lemma AddImage_RemoveImage_roundtrip_witness :
  let e := {| Namespace := "ns"; Pod := "web"; Container := "c";
              ImageURL := "nginx"; IsLatest := false;
              CurrentVersion := "1.0"; LatestVersion := "1.1";
              OS := "linux"; Arch := "amd64" |} in
  let m := AddImage New {| Namespace := "ns"; Pod := "db"; Container := "c";
                           ImageURL := "pg"; IsLatest := true;
                           CurrentVersion := "9"; LatestVersion := "9";
                           OS := ""; Arch := "" |} in
  containerCache m !! latestImageIndex "ns" "web" "c" = None
  ∧ containerImageVersion m !! buildLabels e = None
  ∧ RemoveImage (AddImage m e) "ns" "web" "c" = m.
Proof.
  intros e m. split; [reflexivity|]. split; [reflexivity|].
  exact (proj1 (proj2 (proj2 (AddImage_RemoveImage_roundtrip m e)))
               eq_refl eq_refl).
Defined.




(** Three calls, the first and the third for the container
    [("ab", "c", "x")], the second for [("a", "bc", "x")], whose cache key
    is the same. *)
Definition aliasing_calls : list Op :=
  [ OpAddImage {| Namespace := "ab"; Pod := "c"; Container := "x";
                  ImageURL := "nginx"; IsLatest := false;
                  CurrentVersion := "1.0"; LatestVersion := "1.2";
                  OS := "linux"; Arch := "amd64" |};
    OpAddImage {| Namespace := "a"; Pod := "bc"; Container := "x";
                  ImageURL := "redis"; IsLatest := true;
                  CurrentVersion := "7"; LatestVersion := "7";
                  OS := "linux"; Arch := "amd64" |};
    OpAddImage {| Namespace := "ab"; Pod := "c"; Container := "x";
                  ImageURL := "nginx"; IsLatest := true;
                  CurrentVersion := "1.2"; LatestVersion := "1.2";
                  OS := "linux"; Arch := "amd64" |} ].

(** C1, where the code departs from it. [aliasing_calls] are run one after
    the other on a fresh [Metrics]: the second call replaces the cache item
    of the first without deleting its series, so the third deletes nothing
    either, and the identity [("ab", "c", "x")] ends with two exported
    series (and the cache with one entry). *)
Theorem aliasing_leaves_two_series :
  size (seriesOf ("ab", "c", "x")
          (containerImageVersion (runOps aliasing_calls New))) = 2
  ∧ size (containerCache (runOps aliasing_calls New)) = 1.
Proof. split; vm_compute; reflexivity. Qed.

(** *** One series per identity, as long as no two identities share a key *)

Section AliasFree.

(** The identities the callers use, no two of them with one cache key. *)
Variable used : Identity → Prop.
Hypothesis used_alias_free :
  ∀ i j, used i → used j → indexOf i = indexOf j → i = j.

(** Every exported series is the one its identity's cache item records. *)
Definition consistent (m : Metrics) : Prop :=
  ∀ l v, containerImageVersion m !! l = Some v →
    used (identityOfLabels l)
    ∧ ∃ item, containerCache m !! indexOf (identityOfLabels l) = Some item
              ∧ l = labelsOfItem (identityOfLabels l) item.

Lemma consistent_New : consistent New.
Proof. intros l v H. simpl in H. now rewrite lookup_empty in H. Qed.

Lemma consistent_RemoveImage (m : Metrics) (namespace pod container : string) :
  used (namespace, pod, container) →
  consistent m → consistent (RemoveImage m namespace pod container).
Proof.
  intros Hu Hm.
  destruct (containerCache m !! latestImageIndex namespace pod container)
    as [item|] eqn:E.
  - rewrite (RemoveImage_present _ _ _ _ _ E).
    intros l v Hl; simpl in *.
    apply lookup_delete_Some in Hl as [Hne Hl].
    destruct (Hm l v Hl) as (Hul & item' & Hc & Heq).
    split; [exact Hul|]. exists item'. split; [|exact Heq].
    rewrite lookup_delete_ne; [exact Hc|].
    intros Hidx. apply Hne.
    assert (Hi : (namespace, pod, container) = identityOfLabels l)
      by (apply used_alias_free; auto).
    rewrite Heq, <- Hi. f_equal.
    rewrite <- Hi in Hc. unfold indexOf in Hc; simpl in Hc. congruence.
  - now rewrite (RemoveImage_absent _ _ _ _ E).
Qed.

Lemma consistent_AddImage (m : Metrics) (e : Entry) :
  used (identityOfEntry e) → consistent m → consistent (AddImage m e).
Proof.
  intros Hu Hm. unfold AddImage.
  pose proof (consistent_RemoveImage m _ _ _ Hu Hm) as Hr.
  assert (Hnone : containerCache
                    (RemoveImage m (Namespace e) (Pod e) (Container e))
                  !! indexOf (identityOfEntry e) = None)
    by (rewrite RemoveImage_cache; apply lookup_delete_eq).
  set (m1 := RemoveImage m (Namespace e) (Pod e) (Container e)) in *.
  intros l v Hl. unfold AddImage_locked, GaugeVec_Set in *; simpl in *.
  apply lookup_insert_Some in Hl as [[<- _]|[Hne Hl]].
  - split; [exact Hu|]. exists (itemOfEntry e). split; [|reflexivity].
    apply lookup_insert_eq.
  - destruct (Hr l v Hl) as (Hul & item & Hc & Heq).
    split; [exact Hul|]. exists item. split; [|exact Heq].
    rewrite lookup_insert_ne; [exact Hc|].
    intros Hidx.
    change (latestImageIndex (Namespace e) (Pod e) (Container e))
      with (indexOf (identityOfEntry e)) in Hidx.
    rewrite <- Hidx in Hc. congruence.
Qed.

Lemma consistent_runOps (ops : list Op) (m : Metrics) :
  Forall (λ o, used (identityOfOp o)) ops →
  consistent m → consistent (runOps ops m).
Proof.
  revert m. induction ops as [|o ops IH]; intros m Hops Hm; [exact Hm|].
  inversion Hops as [|? ? Ho Hops']; subst. simpl. apply IH; [exact Hops'|].
  destruct o as [e|namespace pod container]; simpl in *.
  - now apply consistent_AddImage.
  - now apply consistent_RemoveImage.
Qed.

Lemma consistent_one_series (m : Metrics) (i : Identity) :
  consistent m → (size (seriesOf i (containerImageVersion m)) ≤ 1)%nat.
Proof.
  intros Hm.
  destruct (decide (seriesOf i (containerImageVersion m) = ∅)) as [->|Hne].
  - rewrite map_size_empty. lia.
  - apply map_choose in Hne as (l & v & Hl).
    assert (Hsingle : seriesOf i (containerImageVersion m) = {[ l := v ]}).
    { apply map_eq. intros l'.
      destruct (decide (l = l')) as [<-|Hll].
      - now rewrite lookup_singleton_eq.
      - rewrite lookup_singleton_ne by exact Hll.
        destruct (seriesOf i (containerImageVersion m) !! l')
          as [v'|] eqn:El'; [exfalso|reflexivity].
        apply map_lookup_filter_Some in Hl as [Hl Hil].
        apply map_lookup_filter_Some in El' as [Hl' Hil'].
        simpl in *.
        destruct (Hm l v Hl) as (_ & item & Hc & Heq).
        destruct (Hm l' v' Hl') as (_ & item' & Hc' & Heq').
        apply Hll. rewrite Heq, Heq'. rewrite Hil, Hil' in *. congruence. }
    rewrite Hsingle, map_size_singleton. lia.
Qed.

End AliasFree.

(** The calls of a sequence use no two identities with one cache key. *)
Definition aliasFreeOps (ops : list Op) : Prop :=
  ∀ o1 o2, o1 ∈ ops → o2 ∈ ops →
    indexOf (identityOfOp o1) = indexOf (identityOfOp o2) →
    identityOfOp o1 = identityOfOp o2.

(** X1. After any sequence of [AddImage] and [RemoveImage] calls whose
    identities do not collide on the concatenated cache key, run on a fresh
    [Metrics], every identity has at most one exported series, and a series
    that is exported is the one the identity's cache item records. *)
Theorem alias_free_one_series (ops : list Op) (i : Identity) :
  aliasFreeOps ops →
  (size (seriesOf i (containerImageVersion (runOps ops New))) ≤ 1)%nat
  ∧ ∀ l v, containerImageVersion (runOps ops New) !! l = Some v →
      ∃ item, containerCache (runOps ops New) !! indexOf (identityOfLabels l)
              = Some item
              ∧ l = labelsOfItem (identityOfLabels l) item.
Proof.
  intros Hfree.
  set (used := λ j : Identity, ∃ o, o ∈ ops ∧ identityOfOp o = j).
  assert (Hused : ∀ a b, used a → used b → indexOf a = indexOf b → a = b).
  { intros a b (o1 & Ho1 & <-) (o2 & Ho2 & <-). now apply Hfree. }
  assert (Hc : consistent used (runOps ops New)).
  { apply consistent_runOps; [exact Hused| |apply consistent_New].
    apply Forall_forall. intros o Ho. exists o. split; [|reflexivity].
    exact Ho. }
  split.
  - now apply (consistent_one_series used).
  - intros l v Hl. now destruct (Hc l v Hl) as [_ H].
Qed.

Lemma alias_free_one_series_witness :
  let ops :=
    [ OpAddImage {| Namespace := "ns"; Pod := "web"; Container := "c";
                    ImageURL := "nginx"; IsLatest := false;
                    CurrentVersion := "1.0"; LatestVersion := "1.1";
                    OS := "linux"; Arch := "amd64" |};
      OpAddImage {| Namespace := "ns"; Pod := "web"; Container := "c";
                    ImageURL := "nginx"; IsLatest := true;
                    CurrentVersion := "1.1"; LatestVersion := "1.1";
                    OS := "linux"; Arch := "amd64" |};
      OpRemoveImage "ns" "db" "c" ] in
  (size (seriesOf ("ns", "web", "c")
           (containerImageVersion (runOps ops New))) ≤ 1)%nat.
Proof.
  intros ops.
  apply (alias_free_one_series ops ("ns", "web", "c")).
  intros o1 o2 H1 H2.
  repeat (apply elem_of_cons in H1 as [->|H1]);
    [| | |now apply elem_of_nil in H1];
    repeat (apply elem_of_cons in H2 as [->|H2]);
    try (now apply elem_of_nil in H2);
    simpl; intros H; first [reflexivity | discriminate H].
Defined.

(** *** Concurrent callers *)

(** A call of [AddImage] that no other goroutine runs beside is the
    function [AddImage]. *)
Lemma AddImage_code_alone (m : Metrics) (e : Entry) :
  runSchedule [0; 0; 0; 0; 0; 0]%nat (spawn m [AddImage_code e])
  = Some {| shared := AddImage m e; mu := false; goroutines := [[]] |}.
Proof. reflexivity. Qed.

Lemma RemoveImage_code_alone (m : Metrics) (namespace pod container : string) :
  runSchedule [0; 0; 0]%nat
    (spawn m [RemoveImage_code namespace pod container])
  = Some {| shared := RemoveImage m namespace pod container; mu := false;
            goroutines := [[]] |}.
Proof. reflexivity. Qed.

Definition web_v1 : Entry :=
  {| Namespace := "ns"; Pod := "web"; Container := "c";
     ImageURL := "nginx"; IsLatest := false;
     CurrentVersion := "1.0"; LatestVersion := "1.1";
     OS := "linux"; Arch := "amd64" |}.

Definition web_v2 : Entry :=
  {| Namespace := "ns"; Pod := "web"; Container := "c";
     ImageURL := "nginx"; IsLatest := true;
     CurrentVersion := "1.1"; LatestVersion := "1.1";
     OS := "linux"; Arch := "amd64" |}.

(** C4, where the code departs from it. [AddImage] gives the lock back when
    its call of [RemoveImage] returns and takes it again for the set:
    - after the first three steps of an [AddImage] the mutex is free, the
      old series is gone and the new one not yet set, and another goroutine
      takes the lock and sees that state;
    - two [AddImage] calls for one container, each doing its [RemoveImage]
      before the other's set, both finish and leave two exported series for
      that container. *)
Theorem AddImage_releases_lock_between_remove_and_set :
  (∃ c, runSchedule [0; 0; 0]%nat
          (spawn (AddImage New web_v1)
                 [AddImage_code web_v2; RemoveImage_code "ns" "db" "c"])
        = Some c
        ∧ mu c = false
        ∧ goroutines c !! 0%nat
          = Some [Lock; Critical (λ m, AddImage_locked m web_v2); Unlock]
        ∧ size (seriesOf ("ns", "web", "c")
                  (containerImageVersion (shared c))) = 0%nat
        ∧ ∃ c', stepOf 1 c = Some c' ∧ mu c' = true
                ∧ shared c' = shared c)
  ∧ (∃ c, runSchedule [0; 0; 0; 1; 1; 1; 0; 0; 0; 1; 1; 1]%nat
            (spawn New [AddImage_code web_v1; AddImage_code web_v2])
          = Some c
          ∧ finished c = true
          ∧ size (seriesOf ("ns", "web", "c")
                    (containerImageVersion (shared c))) = 2%nat).
Proof.
  split.
  - eexists. split; [reflexivity|]. split; [reflexivity|].
    split; [reflexivity|]. split; [vm_compute; reflexivity|].
    eexists. split; [reflexivity|]. split; reflexivity.
  - eexists. split; [reflexivity|]. split; [reflexivity|].
    vm_compute. reflexivity.
Qed.

(** *** Calls for other containers *)

(** [RemoveImage] in one piece: the series of the cached item goes, if there
    is one, and the key goes. *)
Lemma RemoveImage_eq (m : Metrics) (namespace pod container : string) :
  RemoveImage m namespace pod container
  = {| containerImageVersion :=
         match containerCache m !! latestImageIndex namespace pod container with
         | Some item =>
             delete (labelsOfItem (namespace, pod, container) item)
                    (containerImageVersion m)
         | None => containerImageVersion m
         end;
       containerCache :=
         delete (latestImageIndex namespace pod container)
                (containerCache m) |}.
Proof.
  unfold RemoveImage.
  destruct (containerCache m !! _) as [item|] eqn:E; [reflexivity|].
  destruct m as [vec cache]; simpl in *. f_equal. symmetry.
  now apply delete_id.
Qed.

Lemma indexOf_ne_identity (i j : Identity) : indexOf i ≠ indexOf j → i ≠ j.
Proof. intros Hne ->. now apply Hne. Qed.

(** X2. A call touches only its own container: the series of every other
    identity and the cache entries under every other key are after
    [AddImage] or [RemoveImage] what they were before. *)
Theorem calls_leave_others_alone (m : Metrics) (o : Op) :
  (∀ l, identityOfLabels l ≠ identityOfOp o →
        containerImageVersion (applyOp m o) !! l
        = containerImageVersion m !! l)
  ∧ (∀ k, k ≠ indexOf (identityOfOp o) →
          containerCache (applyOp m o) !! k = containerCache m !! k).
Proof.
  assert (Hremove : ∀ m0 namespace pod container,
    (∀ l, identityOfLabels l ≠ (namespace, pod, container) →
          containerImageVersion (RemoveImage m0 namespace pod container) !! l
          = containerImageVersion m0 !! l)
    ∧ (∀ k, k ≠ latestImageIndex namespace pod container →
            containerCache (RemoveImage m0 namespace pod container) !! k
            = containerCache m0 !! k)).
  { intros m0 namespace pod container. rewrite RemoveImage_eq; simpl. split.
    - intros l Hl. destruct (containerCache m0 !! _) as [item|]; [|reflexivity].
      apply lookup_delete_ne. intros <-. now apply Hl.
    - intros k Hk. now apply lookup_delete_ne. }
  destruct o as [e|namespace pod container]; simpl; [|apply Hremove].
  destruct (Hremove m (Namespace e) (Pod e) (Container e)) as [Hvec Hcache].
  unfold AddImage, AddImage_locked, GaugeVec_Set; simpl. split.
  - intros l Hl. rewrite lookup_insert_ne; [now apply Hvec|].
    intros <-. now apply Hl.
  - intros k Hk. rewrite lookup_insert_ne; [now apply Hcache|].
    intros <-. now apply Hk.
Qed.

(** X3. [AddImage] of the entry that was added last changes nothing: from
    any state, adding an entry twice is adding it once. *)
Theorem AddImage_idempotent (m : Metrics) (e : Entry) :
  AddImage (AddImage m e) e = AddImage m e.
Proof.
  unfold AddImage at 1.
  rewrite (RemoveImage_present _ _ _ _ (itemOfEntry e))
    by (rewrite AddImage_cache; apply lookup_insert_eq).
  change (labelsOfItem (Namespace e, Pod e, Container e) (itemOfEntry e))
    with (buildLabels e).
  rewrite AddImage_cache.
  unfold AddImage, AddImage_locked, GaugeVec_Set, indexOf; simpl.
  rewrite RemoveImage_cache.
  f_equal.
  - now rewrite insert_delete_eq, insert_insert_eq.
  - now rewrite !insert_delete_eq, insert_insert_eq.
Qed.

(** Two state changes that can be done in either order. *)
Definition commute (f g : Metrics → Metrics) : Prop :=
  ∀ m, f (g m) = g (f m).

(** The lock-delimited steps of a call, in order. *)
Definition stepsOf (o : Op) : list (Metrics → Metrics) :=
  match o with
  | OpAddImage e =>
      [ (λ m, RemoveImage m (Namespace e) (Pod e) (Container e));
        (λ m, AddImage_locked m e) ]
  | OpRemoveImage namespace pod container =>
      [ (λ m, RemoveImage m namespace pod container) ]
  end.

Definition applyAll (fs : list (Metrics → Metrics)) (m : Metrics) : Metrics :=
  fold_left (λ m f, f m) fs m.

Lemma applyAll_stepsOf (o : Op) (m : Metrics) :
  applyAll (stepsOf o) m = applyOp m o.
Proof. destruct o; reflexivity. Qed.

Lemma RemoveImage_RemoveImage_commute (i j : Identity) :
  indexOf i ≠ indexOf j →
  commute (λ m, RemoveImage m i.1.1 i.1.2 i.2)
          (λ m, RemoveImage m j.1.1 j.1.2 j.2).
Proof.
  intros Hne m. destruct i as [[n1 p1] c1], j as [[n2 p2] c2].
  unfold indexOf in Hne; simpl in *.
  rewrite !RemoveImage_eq; simpl.
  rewrite !lookup_delete_ne by congruence.
  f_equal; [|apply delete_delete].
  destruct (containerCache m !! latestImageIndex n1 p1 c1),
           (containerCache m !! latestImageIndex n2 p2 c2);
    try reflexivity.
  apply delete_delete.
Qed.

Lemma AddImage_locked_RemoveImage_commute (e : Entry) (j : Identity) :
  indexOf (identityOfEntry e) ≠ indexOf j →
  commute (λ m, AddImage_locked m e) (λ m, RemoveImage m j.1.1 j.1.2 j.2).
Proof.
  intros Hne m. destruct j as [[n2 p2] c2].
  pose proof (indexOf_ne_identity _ _ Hne) as Hid.
  unfold indexOf in Hne; simpl in *.
  rewrite !RemoveImage_eq; unfold AddImage_locked, GaugeVec_Set; simpl.
  rewrite lookup_insert_ne by congruence.
  f_equal; [|now rewrite delete_insert_ne by congruence].
  destruct (containerCache m !! latestImageIndex n2 p2 c2); [|reflexivity].
  rewrite delete_insert_ne; [reflexivity|].
  intros Heq. apply Hid.
  now rewrite <- identityOf_buildLabels, <- Heq.
Qed.

Lemma AddImage_locked_AddImage_locked_commute (e1 e2 : Entry) :
  indexOf (identityOfEntry e1) ≠ indexOf (identityOfEntry e2) →
  commute (λ m, AddImage_locked m e1) (λ m, AddImage_locked m e2).
Proof.
  intros Hne m.
  pose proof (indexOf_ne_identity _ _ Hne) as Hid.
  unfold indexOf in Hne; simpl in *.
  unfold AddImage_locked, GaugeVec_Set; simpl.
  f_equal; apply insert_insert_ne; [|congruence].
  intros Heq. apply Hid.
  now rewrite <- !identityOf_buildLabels, Heq.
Qed.

(** The steps of two calls with different cache keys commute, each with
    each. *)
Lemma stepsOf_commute (o1 o2 : Op) :
  indexOf (identityOfOp o1) ≠ indexOf (identityOfOp o2) →
  ∀ f g, f ∈ stepsOf o1 → g ∈ stepsOf o2 → commute f g.
Proof.
  intros Hne f g Hf Hg.
  assert (Hne' : indexOf (identityOfOp o2) ≠ indexOf (identityOfOp o1))
    by congruence.
  destruct o1 as [e1|n1 p1 c1], o2 as [e2|n2 p2 c2]; simpl in *;
    repeat match goal with
           | H : _ ∈ _ :: _ |- _ => apply elem_of_cons in H as [->|H]
           | H : _ ∈ [] |- _ => now apply elem_of_nil in H
           end.
  all: lazymatch goal with
       | |- commute (λ m1, RemoveImage m1 ?a ?b ?c)
                    (λ m2, RemoveImage m2 ?a' ?b' ?c') =>
           apply (RemoveImage_RemoveImage_commute (a, b, c) (a', b', c'))
       | |- commute (λ m1, AddImage_locked m1 ?e)
                    (λ m2, RemoveImage m2 ?a ?b ?c) =>
           apply (AddImage_locked_RemoveImage_commute e (a, b, c))
       | |- commute (λ m1, RemoveImage m1 ?a ?b ?c)
                    (λ m2, AddImage_locked m2 ?e) =>
           intros m0; symmetry;
           apply (AddImage_locked_RemoveImage_commute e (a, b, c))
       | |- commute (λ m1, AddImage_locked m1 _)
                    (λ m2, AddImage_locked m2 _) =>
           apply AddImage_locked_AddImage_locked_commute
       end; first [exact Hne | exact Hne'].
Qed.

Lemma applyAll_app (fs gs : list (Metrics → Metrics)) (m : Metrics) :
  applyAll (fs ++ gs)%list m = applyAll gs (applyAll fs m).
Proof. apply fold_left_app. Qed.

Lemma applyAll_commute (f : Metrics → Metrics)
  (gs : list (Metrics → Metrics)) (m : Metrics) :
  (∀ g, g ∈ gs → commute f g) → applyAll gs (f m) = f (applyAll gs m).
Proof.
  revert m. induction gs as [|g gs IH]; intros m Hc; [reflexivity|].
  simpl. rewrite <- (Hc g) by (apply elem_of_cons; now left).
  apply IH. intros g' Hg'. apply Hc. apply elem_of_cons. now right.
Qed.

(** X4. Calls for containers with different cache keys can be done in
    either order: the state afterwards is the same. *)
Theorem calls_with_different_keys_commute (m : Metrics) (o1 o2 : Op) :
  indexOf (identityOfOp o1) ≠ indexOf (identityOfOp o2) →
  applyOp (applyOp m o1) o2 = applyOp (applyOp m o2) o1.
Proof.
  intros Hne.
  rewrite <- !applyAll_stepsOf.
  assert (Hall : ∀ fs gs m0,
            (∀ f g, f ∈ fs → g ∈ gs → commute f g) →
            applyAll gs (applyAll fs m0) = applyAll fs (applyAll gs m0)).
  { induction fs as [|f fs IH]; intros gs m0 Hc; [reflexivity|].
    simpl. rewrite IH
      by (intros f' g Hf' Hg; apply Hc; [apply elem_of_cons; now right|done]).
    rewrite (applyAll_commute f gs)
      by (intros g Hg; apply Hc; [apply elem_of_cons; now left|done]).
    reflexivity. }
  apply Hall. now apply stepsOf_commute.
Qed.

Lemma calls_with_different_keys_commute_witness :
  applyOp (applyOp New (OpAddImage web_v1)) (OpRemoveImage "ns" "db" "c")
  = applyOp (applyOp New (OpRemoveImage "ns" "db" "c")) (OpAddImage web_v1).
Proof.
  apply (calls_with_different_keys_commute New (OpAddImage web_v1)
           (OpRemoveImage "ns" "db" "c")).
  discriminate.
Defined.

(** *** Any interleaving of calls for different containers *)

(** The steps on the shared state a goroutine still has to do. *)
Fixpoint criticals (k : list instr) : list (Metrics → Metrics) :=
  match k with
  | [] => []
  | Critical f :: k' => f :: criticals k'
  | _ :: k' => criticals k'
  end.

Fixpoint pending (ks : list (list instr)) : list (Metrics → Metrics) :=
  match ks with
  | [] => []
  | k :: ks' => (criticals k ++ pending ks')%list
  end.

(** The code a call runs. *)
Definition codeOf (o : Op) : list instr :=
  match o with
  | OpAddImage e => AddImage_code e
  | OpRemoveImage namespace pod container =>
      RemoveImage_code namespace pod container
  end.

(** The steps of different goroutines commute. *)
Definition independent (ks : list (list instr)) : Prop :=
  ∀ i j ki kj f g,
    i ≠ j → ks !! i = Some ki → ks !! j = Some kj →
    f ∈ criticals ki → g ∈ criticals kj → commute f g.

Lemma pending_app (ks1 ks2 : list (list instr)) :
  pending (ks1 ++ ks2)%list = (pending ks1 ++ pending ks2)%list.
Proof.
  induction ks1 as [|k ks1 IH]; simpl; [reflexivity|].
  now rewrite IH, app_assoc.
Qed.

Lemma elem_of_pending (g : Metrics → Metrics) (ks : list (list instr)) :
  g ∈ pending ks → ∃ j kj, ks !! j = Some kj ∧ g ∈ criticals kj.
Proof.
  induction ks as [|k ks IH]; simpl; intros Hg.
  - now apply elem_of_nil in Hg.
  - apply elem_of_app in Hg as [Hg|Hg].
    + exists 0%nat, k. now split.
    + destruct (IH Hg) as (j & kj & Hj & Hkj). exists (S j), kj. now split.
Qed.

Lemma pending_split (ks : list (list instr)) (t : nat) (k : list instr) :
  ks !! t = Some k →
  ∀ k', pending (<[t := k']> ks)
        = (pending (take t ks) ++ criticals k' ++ pending (drop (S t) ks))%list.
Proof.
  intros Ht k'.
  rewrite insert_take_drop by (eapply lookup_lt_Some; exact Ht).
  now rewrite pending_app.
Qed.

Lemma stepOf_pending (t : nat) (c c' : Config) :
  stepOf t c = Some c' →
  independent (goroutines c) →
  applyAll (pending (goroutines c')) (shared c')
  = applyAll (pending (goroutines c)) (shared c)
  ∧ independent (goroutines c').
Proof.
  intros Hstep Hind. unfold stepOf in Hstep.
  destruct (goroutines c !! t) as [k0|] eqn:Ht; [|discriminate].
  destruct k0 as [|ins k]; [discriminate|].
  assert (Hks : pending (goroutines c)
                = (pending (take t (goroutines c)) ++ criticals (ins :: k)
                   ++ pending (drop (S t) (goroutines c)))%list).
  { rewrite <- (pending_split _ _ _ Ht), list_insert_id; [reflexivity|exact Ht]. }
  assert (Hind' : independent (<[t := k]> (goroutines c))).
  { intros i j ki kj f g Hij Hi Hj Hf Hg.
    assert (Hsub : ∀ n kn h, <[t := k]> (goroutines c) !! n = Some kn →
              h ∈ criticals kn →
              ∃ kn', goroutines c !! n = Some kn' ∧ h ∈ criticals kn').
    { intros n kn h Hn Hh. destruct (decide (t = n)) as [<-|Hne].
      - rewrite list_lookup_insert_eq in Hn
          by (eapply lookup_lt_Some; exact Ht).
        injection Hn as <-. exists (ins :: k). split; [exact Ht|].
        destruct ins; simpl; [exact Hh|exact Hh|].
        apply elem_of_cons. now right.
      - rewrite list_lookup_insert_ne in Hn by exact Hne.
        exists kn. now split. }
    destruct (Hsub i ki f Hi Hf) as (ki' & Hi' & Hf').
    destruct (Hsub j kj g Hj Hg) as (kj' & Hj' & Hg').
    exact (Hind i j ki' kj' f g Hij Hi' Hj' Hf' Hg'). }
  destruct ins as [| |f].
  - destruct (mu c); [discriminate|]. injection Hstep as <-. simpl.
    split; [|exact Hind'].
    now rewrite (pending_split _ _ _ Ht), Hks.
  - destruct (mu c); [|discriminate]. injection Hstep as <-. simpl.
    split; [|exact Hind'].
    now rewrite (pending_split _ _ _ Ht), Hks.
  - injection Hstep as <-. simpl. split; [|exact Hind'].
    rewrite (pending_split _ _ _ Ht), Hks.
    rewrite (applyAll_app (pending (take t (goroutines c))) _ (f (shared c))).
    rewrite (applyAll_app (pending (take t (goroutines c))) _ (shared c)).
    rewrite (applyAll_commute f (pending (take t (goroutines c))) (shared c));
      [reflexivity|].
    intros g Hg.
    apply elem_of_pending in Hg as (j & kj & Hj & Hgj).
    apply lookup_take_Some in Hj as [Hj Hlt].
    apply (Hind t j (Critical f :: k) kj f g); try done; [lia|].
    apply elem_of_cons. now left.
Qed.

Lemma runSchedule_pending (sched : list nat) (c c' : Config) :
  runSchedule sched c = Some c' →
  independent (goroutines c) →
  applyAll (pending (goroutines c')) (shared c')
  = applyAll (pending (goroutines c)) (shared c).
Proof.
  revert c. induction sched as [|t sched IH]; intros c Hrun Hind; simpl in Hrun.
  - now injection Hrun as <-.
  - destruct (stepOf t c) as [c1|] eqn:Hstep; [|discriminate].
    destruct (stepOf_pending t c c1 Hstep Hind) as [Heq Hind1].
    now rewrite (IH c1 Hrun Hind1).
Qed.

Lemma finished_pending (c : Config) :
  finished c = true → pending (goroutines c) = [].
Proof.
  unfold finished. intros Hf. apply andb_prop in Hf as [_ Hf].
  induction (goroutines c) as [|k ks IH]; [reflexivity|].
  simpl in Hf. apply andb_prop in Hf as [Hk Hks].
  destruct k; [|discriminate]. simpl. now apply IH.
Qed.

Lemma pending_codeOf (ops : list Op) (m : Metrics) :
  applyAll (pending (map codeOf ops)) m = runOps ops m.
Proof.
  revert m. induction ops as [|o ops IH]; intros m; [reflexivity|].
  simpl. rewrite applyAll_app.
  replace (criticals (codeOf o)) with (stepsOf o) by (now destruct o).
  now rewrite applyAll_stepsOf, IH.
Qed.

(** X5. Goroutines that call [AddImage] and [RemoveImage] for containers
    with pairwise different cache keys: whatever the schedule, once every
    call has returned the shared state is the one the calls give when run
    one after the other. *)
Theorem any_schedule_of_different_keys (ops : list Op) (m : Metrics)
  (sched : list nat) (c : Config) :
  NoDup (map (λ o, indexOf (identityOfOp o)) ops) →
  runSchedule sched (spawn m (map codeOf ops)) = Some c →
  finished c = true →
  shared c = runOps ops m.
Proof.
  intros Hkeys Hrun Hfin.
  assert (Hind : independent (map codeOf ops)).
  { intros i j ki kj f g Hij Hi Hj Hf Hg.
    change (map codeOf ops) with (codeOf <$> ops) in Hi, Hj.
    apply list_lookup_fmap_Some in Hi as (oi & -> & Hi).
    apply list_lookup_fmap_Some in Hj as (oj & -> & Hj).
    apply (stepsOf_commute oi oj).
    - intros Heq. apply Hij.
      apply (NoDup_lookup _ i j (indexOf (identityOfOp oi)) Hkeys).
      + change (map ?h ops) with (h <$> ops).
        now rewrite list_lookup_fmap, Hi.
      + change (map ?h ops) with (h <$> ops).
        now rewrite list_lookup_fmap, Hj, Heq.
    - now destruct oi.
    - now destruct oj. }
  pose proof (runSchedule_pending sched _ c Hrun Hind) as Heq.
  rewrite (finished_pending c Hfin) in Heq. simpl in Heq.
  now rewrite Heq, pending_codeOf.
Qed.

Definition db_v9 : Entry :=
  {| Namespace := "ns"; Pod := "db"; Container := "c";
     ImageURL := "postgres"; IsLatest := true;
     CurrentVersion := "9"; LatestVersion := "9";
     OS := "linux"; Arch := "amd64" |}.

Lemma any_schedule_of_different_keys_witness :
  ∃ c, runSchedule [0; 0; 0; 1; 1; 1; 0; 0; 0; 1; 1; 1]%nat
         (spawn New (map codeOf [OpAddImage web_v1; OpAddImage db_v9]))
       = Some c
       ∧ shared c = runOps [OpAddImage web_v1; OpAddImage db_v9] New.
Proof.
  eexists. split; [reflexivity|].
  apply (any_schedule_of_different_keys
           [OpAddImage web_v1; OpAddImage db_v9] New
           [0; 0; 0; 1; 1; 1; 0; 0; 0; 1; 1; 1]%nat).
  - apply NoDup_cons. split.
    + intros Hin. apply elem_of_cons in Hin as [Hin|Hin];
        [discriminate Hin | now apply elem_of_nil in Hin].
    + apply NoDup_cons. split; [apply not_elem_of_nil | apply NoDup_nil_2].
  - reflexivity.
  - reflexivity.
Defined.

(** *** The mutex *)

(** Code of a goroutine that does not hold the lock: whole
    lock, step, unlock regions. *)
Fixpoint outside (k : list instr) : bool :=
  match k with
  | [] => true
  | Lock :: Critical _ :: Unlock :: k' => outside k'
  | _ => false
  end.

(** Code of the goroutine that holds the lock. *)
Definition inside (k : list instr) : bool :=
  match k with
  | Critical _ :: Unlock :: k' => outside k'
  | Unlock :: k' => outside k'
  | _ => false
  end.

(** The mutex is held exactly when one goroutine is inside a region, and
    then every other goroutine is outside. *)
Definition wellLocked (c : Config) : Prop :=
  if mu c
  then ∃ t k, goroutines c !! t = Some k ∧ inside k = true
              ∧ ∀ j kj, j ≠ t → goroutines c !! j = Some kj →
                        outside kj = true
  else ∀ j kj, goroutines c !! j = Some kj → outside kj = true.

Lemma outside_codeOf (o : Op) : outside (codeOf o) = true.
Proof. now destruct o. Qed.

Lemma wellLocked_spawn (m : Metrics) (ops : list Op) :
  wellLocked (spawn m (map codeOf ops)).
Proof.
  intros j kj Hj. simpl in Hj.
  change (map codeOf ops) with (codeOf <$> ops) in Hj.
  apply list_lookup_fmap_Some in Hj as (o & -> & _). apply outside_codeOf.
Qed.

Lemma outside_head (k : list instr) :
  outside k = true →
  k = [] ∨ ∃ f k', k = Lock :: Critical f :: Unlock :: k' ∧ outside k' = true.
Proof.
  destruct k as [|[| |f] [|[| |g] [|[| |h] k']]]; simpl; intros Hk;
    try discriminate; [now left|].
  right. now exists g, k'.
Qed.

Lemma stepOf_wellLocked (t : nat) (c c' : Config) :
  wellLocked c → stepOf t c = Some c' → wellLocked c'.
Proof.
  unfold wellLocked, stepOf. intros Hw Hstep.
  destruct (goroutines c !! t) as [k|] eqn:Ht; [|discriminate].
  assert (Hlt : (t < length (goroutines c))%nat)
    by (eapply lookup_lt_Some; exact Ht).
  destruct (mu c) eqn:Hmu.
  - destruct Hw as (t0 & k0 & Ht0 & Hin & Hothers).
    destruct (decide (t = t0)) as [->|Hne].
    + rewrite Ht in Ht0. injection Ht0 as ->.
      destruct k0 as [|[| |f] k1]; try discriminate.
      * injection Hstep as <-. simpl. intros j kj Hj.
        destruct (decide (t0 = j)) as [<-|Hj0].
        -- rewrite list_lookup_insert_eq in Hj by exact Hlt.
           now injection Hj as <-.
        -- rewrite list_lookup_insert_ne in Hj by exact Hj0.
           apply (Hothers j kj); [congruence|exact Hj].
      * destruct k1 as [|[| |g] k2]; try discriminate.
        injection Hstep as <-. simpl.
        exists t0, (Unlock :: k2). split.
        { now apply list_lookup_insert_eq. }
        split; [exact Hin|].
        intros j kj Hj0 Hj.
        rewrite list_lookup_insert_ne in Hj by congruence.
        now apply (Hothers j kj).
    + destruct (outside_head k (Hothers t k Hne Ht)) as [->|(f & k' & -> & _)];
        discriminate.
  - destruct (outside_head k (Hw t k Ht)) as [->|(f & k' & -> & Hk')];
      [discriminate|].
    injection Hstep as <-. simpl.
    exists t, (Critical f :: Unlock :: k'). split.
    { now apply list_lookup_insert_eq. }
    split; [exact Hk'|].
    intros j kj Hj0 Hj.
    rewrite list_lookup_insert_ne in Hj by congruence.
    now apply (Hw j kj).
Qed.

Lemma runSchedule_wellLocked (sched : list nat) (c c' : Config) :
  wellLocked c → runSchedule sched c = Some c' → wellLocked c'.
Proof.
  revert c. induction sched as [|t sched IH]; intros c Hw Hrun; simpl in Hrun.
  - now injection Hrun as <-.
  - destruct (stepOf t c) as [c1|] eqn:Hstep; [|discriminate].
    apply (IH c1); [|exact Hrun]. now apply (stepOf_wellLocked t c).
Qed.

(** X6. Calls of [AddImage] and [RemoveImage] running side by side, in any
    state a schedule can reach: a goroutine that is about to change the
    shared state holds the mutex, and it is the only one (mutual exclusion);
    and unless every call has returned, some goroutine can take a step (no
    deadlock). *)
Theorem calls_exclude_each_other_and_progress (ops : list Op) (m : Metrics)
  (sched : list nat) (c : Config) :
  runSchedule sched (spawn m (map codeOf ops)) = Some c →
  (∀ i ki f, goroutines c !! i = Some (Critical f :: ki) →
     mu c = true
     ∧ ∀ j kj g, goroutines c !! j = Some (Critical g :: kj) → i = j)
  ∧ (finished c = true ∨ ∃ t c', stepOf t c = Some c').
Proof.
  intros Hrun.
  pose proof (runSchedule_wellLocked sched _ c (wellLocked_spawn m ops) Hrun)
    as Hw.
  unfold wellLocked in Hw. split.
  - intros i ki f Hi. destruct (mu c).
    + split; [reflexivity|].
      destruct Hw as (t0 & k0 & Ht0 & Hin & Hothers).
      assert (Hhold : ∀ j kj g,
                goroutines c !! j = Some (Critical g :: kj) → j = t0).
      { intros j kj g Hj. destruct (decide (j = t0)) as [->|Hne]; [done|].
        now pose proof (Hothers j _ Hne Hj). }
      intros j kj g Hj.
      now rewrite (Hhold i ki f Hi), (Hhold j kj g Hj).
    + now pose proof (Hw i _ Hi).
  - unfold finished, stepOf. destruct (mu c) eqn:Hmu.
    + right. destruct Hw as (t0 & k0 & Ht0 & Hin & _).
      exists t0. rewrite Ht0.
      destruct k0 as [|[| |f] k1]; try discriminate; eauto.
    + simpl.
      destruct (forallb (λ k, match k with [] => true | _ => false end)
                        (goroutines c)) eqn:Hall; [now left|right].
      assert (Hex : ∃ j kj, goroutines c !! j = Some kj ∧ kj ≠ []).
      { clear Hw. induction (goroutines c) as [|k ks IH]; [discriminate|].
        simpl in Hall. destruct k as [|ins k].
        - destruct (IH Hall) as (j & kj & Hj & Hne).
          exists (S j), kj. now split.
        - exists 0%nat, (ins :: k). now split. }
      destruct Hex as (j & kj & Hj & Hne).
      destruct (outside_head kj (Hw j kj Hj)) as [->|(f & k' & -> & _)];
        [done|].
      exists j. rewrite Hj. eauto.
Qed.

Lemma calls_exclude_each_other_and_progress_witness :
  ∃ c, runSchedule [0; 0; 0; 1; 1]%nat
         (spawn New (map codeOf [OpAddImage web_v1; OpAddImage web_v2]))
       = Some c
       ∧ mu c = true
       ∧ finished c = false
       ∧ ∃ t c', stepOf t c = Some c'.
Proof.
  eexists. split; [reflexivity|]. split; [reflexivity|].
  split; [reflexivity|].
  destruct (calls_exclude_each_other_and_progress
              [OpAddImage web_v1; OpAddImage web_v2] New
              [0; 0; 0; 1; 1]%nat _ eq_refl) as [_ [Hfin|Hstep]].
  - discriminate Hfin.
  - exact Hstep.
Defined.

(** *** What every sequence of calls keeps, colliding keys or not *)

(** Every cache item has its series exported: the label set [RemoveImage]
    would delete for it, for an identity with that key. *)
Definition cacheBacked (m : Metrics) : Prop :=
  ∀ k item, containerCache m !! k = Some item →
    ∃ i, indexOf i = k
         ∧ is_Some (containerImageVersion m !! labelsOfItem i item).

(** Every exported value is [1.0] or [0.0]. *)
Definition binaryValues (m : Metrics) : Prop :=
  ∀ l v, containerImageVersion m !! l = Some v →
    v = QArith_base.Qmake 1 1 ∨ v = QArith_base.Qmake 0 1.

Lemma identityOf_labelsOfItem (i : Identity) (item : cacheItem) :
  identityOfLabels (labelsOfItem i item) = i.
Proof. now destruct i as [[n p] c]. Qed.

Lemma cacheBacked_RemoveImage (m : Metrics) (namespace pod container : string) :
  cacheBacked m → cacheBacked (RemoveImage m namespace pod container).
Proof.
  intros Hm k item. rewrite RemoveImage_eq; simpl. intros Hk.
  apply lookup_delete_Some in Hk as [Hne Hk].
  destruct (Hm k item Hk) as (i & Hi & Hs). exists i. split; [exact Hi|].
  destruct (containerCache m !! latestImageIndex namespace pod container)
    as [item0|]; [|exact Hs].
  rewrite lookup_delete_ne; [exact Hs|].
  intros Heq. apply Hne.
  apply (f_equal identityOfLabels) in Heq.
  rewrite !identityOf_labelsOfItem in Heq. now rewrite <- Hi, <- Heq.
Qed.

Lemma cacheBacked_AddImage (m : Metrics) (e : Entry) :
  cacheBacked m → cacheBacked (AddImage m e).
Proof.
  intros Hm. unfold AddImage.
  pose proof (cacheBacked_RemoveImage m (Namespace e) (Pod e) (Container e) Hm)
    as Hr.
  set (m1 := RemoveImage m (Namespace e) (Pod e) (Container e)) in *.
  intros k item. unfold AddImage_locked, GaugeVec_Set; simpl. intros Hk.
  apply lookup_insert_Some in Hk as [[<- <-]|[Hne Hk]].
  - exists (identityOfEntry e). split; [reflexivity|].
    change (labelsOfItem (identityOfEntry e)
              {| image := ImageURL e; currentVersion := CurrentVersion e;
                 latestVersion := LatestVersion e; os := OS e;
                 arch := Arch e |}) with (buildLabels e).
    rewrite lookup_insert_eq. now eexists.
  - destruct (Hr k item Hk) as (i & Hi & Hs). exists i. split; [exact Hi|].
    apply lookup_insert_is_Some'. now right.
Qed.

Lemma binaryValues_applyOp (m : Metrics) (o : Op) :
  binaryValues m → binaryValues (applyOp m o).
Proof.
  assert (Hremove : ∀ m0 namespace pod container,
            binaryValues m0 →
            binaryValues (RemoveImage m0 namespace pod container)).
  { intros m0 namespace pod container Hm0 l v.
    rewrite RemoveImage_eq; simpl.
    destruct (containerCache m0 !! _); [|apply Hm0].
    intros Hl. apply lookup_delete_Some in Hl as [_ Hl]. now apply (Hm0 l). }
  intros Hm. destruct o as [e|namespace pod container]; simpl;
    [|now apply Hremove].
  intros l v. unfold AddImage, AddImage_locked, GaugeVec_Set; simpl.
  intros Hl. apply lookup_insert_Some in Hl as [[_ <-]|[_ Hl]].
  - destruct (IsLatest e); [now left|now right].
  - now apply (Hremove m (Namespace e) (Pod e) (Container e) Hm l).
Qed.

(** X7. After every sequence of [AddImage] and [RemoveImage] calls on a
    fresh [Metrics], also when keys of different identities collide, each
    cache item is backed by an exported series (under the label set
    [RemoveImage] deletes for it), and every exported gauge value is [1.0]
    or [0.0]. *)
Theorem calls_keep_cache_backed (ops : list Op) :
  (∀ k item, containerCache (runOps ops New) !! k = Some item →
     ∃ i, indexOf i = k
          ∧ is_Some (containerImageVersion (runOps ops New)
                       !! labelsOfItem i item))
  ∧ (∀ l v, containerImageVersion (runOps ops New) !! l = Some v →
       v = QArith_base.Qmake 1 1 ∨ v = QArith_base.Qmake 0 1).
Proof.
  assert (Hinv : ∀ m, cacheBacked m ∧ binaryValues m →
                      cacheBacked (runOps ops m) ∧ binaryValues (runOps ops m)).
  { induction ops as [|o ops IH]; intros m [Hc Hb]; [now split|].
    simpl. apply IH. split; [|now apply binaryValues_applyOp].
    destruct o as [e|namespace pod container]; simpl.
    - now apply cacheBacked_AddImage.
    - now apply cacheBacked_RemoveImage. }
  apply Hinv. split.
  - intros k item Hk. simpl in Hk. now rewrite lookup_empty in Hk.
  - intros l v Hl. simpl in Hl. now rewrite lookup_empty in Hl.
Qed.



Lemma calls_leave_others_alone_witness :
  containerImageVersion
    (applyOp (AddImage New db_v9) (OpAddImage web_v1)) !! buildLabels db_v9
  = Some (QArith_base.Qmake 1 1)
  ∧ containerCache
      (applyOp (AddImage New db_v9) (OpRemoveImage "ns" "web" "c")) !! "nsdbc"
    = Some (itemOfEntry db_v9).
Proof.
  split.
  - etransitivity.
    + apply (proj1 (calls_leave_others_alone (AddImage New db_v9)
                      (OpAddImage web_v1)) (buildLabels db_v9)).
      discriminate.
    + reflexivity.
  - etransitivity.
    + apply (proj2 (calls_leave_others_alone (AddImage New db_v9)
                      (OpRemoveImage "ns" "web" "c")) "nsdbc").
      discriminate.
    + reflexivity.
Defined.

Lemma calls_keep_cache_backed_witness :
  containerCache (runOps aliasing_calls New) !! "abcx"
  = Some (itemOfEntry
            {| Namespace := "ab"; Pod := "c"; Container := "x";
               ImageURL := "nginx"; IsLatest := true;
               CurrentVersion := "1.2"; LatestVersion := "1.2";
               OS := "linux"; Arch := "amd64" |})
  ∧ ∃ i, indexOf i = "abcx"
         ∧ is_Some (containerImageVersion (runOps aliasing_calls New)
                      !! labelsOfItem i
                           (itemOfEntry
                              {| Namespace := "ab"; Pod := "c";
                                 Container := "x"; ImageURL := "nginx";
                                 IsLatest := true; CurrentVersion := "1.2";
                                 LatestVersion := "1.2"; OS := "linux";
                                 Arch := "amd64" |})).
Proof.
  split; [reflexivity|].
  exact (proj1 (calls_keep_cache_backed aliasing_calls) "abcx" _ eq_refl).
Defined.

End MetricsFacts.

(* ===================================================================== *)
(** ** Properties of the Docker digest resolver *)
(* ===================================================================== *)

Module DockerFacts.
Import GoStrings Docker.

(** *** Query strings *)

Lemma memChar_app (c : ascii) (a b : string) :
  memChar c (a ++ b) = memChar c a || memChar c b.
Proof.
  induction a as [|d a IH]; simpl; [reflexivity|].
  rewrite IH. apply orb_assoc.
Qed.

Lemma QueryEscape_cons (c : ascii) (s : string) :
  QueryEscape (String c s) = QueryEscape (String c "") ++ QueryEscape s.
Proof.
  simpl. destruct (Ascii.eqb c " "); [reflexivity|].
  destruct (shouldEscape c); reflexivity.
Qed.

Lemma QueryUnescape_escaped_byte (c : ascii) (s : string) :
  QueryUnescape (QueryEscape (String c "") ++ s)
  = option_map (String c) (QueryUnescape s).
Proof. destruct c as [[] [] [] [] [] [] [] []]; reflexivity. Qed.

Lemma QueryEscape_byte_no_separator (c : ascii) :
  memChar "&" (QueryEscape (String c "")) = false
  ∧ memChar "=" (QueryEscape (String c "")) = false.
Proof. destruct c as [[] [] [] [] [] [] [] []]; split; reflexivity. Qed.

(** What [QueryEscape] writes, [QueryUnescape] reads back. *)
Lemma QueryUnescape_QueryEscape (s : string) :
  QueryUnescape (QueryEscape s) = Some s.
Proof.
  induction s as [|c s IH]; [reflexivity|].
  rewrite QueryEscape_cons, QueryUnescape_escaped_byte, IH. reflexivity.
Qed.

Lemma QueryEscape_no_separator (s : string) :
  memChar "&" (QueryEscape s) = false ∧ memChar "=" (QueryEscape s) = false.
Proof.
  induction s as [|c s [IH1 IH2]]; [split; reflexivity|].
  rewrite QueryEscape_cons, !memChar_app, IH1, IH2.
  destruct (QueryEscape_byte_no_separator c) as [-> ->]. split; reflexivity.
Qed.

Lemma splitOn_app (sep : ascii) (a b : string) :
  memChar sep a = false →
  splitOn sep (a ++ String sep b) = a :: splitOn sep b.
Proof.
  induction a as [|c a IH]; simpl.
  - intros _. now rewrite Ascii.eqb_refl.
  - rewrite Ascii.eqb_sym. intros Hc. apply orb_false_elim in Hc as [Hc Ha].
    rewrite Hc, (IH Ha). reflexivity.
Qed.

(** C6. The URL [authUrl] builds is the token URL with the query
    [scope=...&service=registry.docker.io], and the value the token endpoint
    reads for [scope] out of that query is exactly
    [repository:{repo}/{image}:pull], with [repo] and [image] as they were
    given, whatever bytes they hold (a ["/"] included): on the wire the value
    is percent-encoded by [q.Encode()], and decoding gives it back
    unchanged. *)
Theorem authUrl_scope (repo image : string) :
  let scope := "repository:" ++ repo ++ "/" ++ image ++ ":pull" in
  let rawQuery :=
    "scope=" ++ QueryEscape scope ++ "&service=registry.docker.io" in
  authUrl repo image = (tokenURL ++ "?" ++ rawQuery, None)
  ∧ Values_Get (ParseQuery rawQuery) "scope" = scope
  ∧ ParseQuery rawQuery
    = [("scope", [scope]); ("service", ["registry.docker.io"])].
Proof.
  intros scope rawQuery.
  assert (Hparse : ParseQuery rawQuery
            = [("scope", [scope]); ("service", ["registry.docker.io"])]).
  { unfold ParseQuery, rawQuery.
    change ("scope=" ++ QueryEscape scope ++ "&service=registry.docker.io")
      with (("scope=" ++ QueryEscape scope)
            ++ String "&" "service=registry.docker.io").
    rewrite splitOn_app.
    - change (splitOn "&" "service=registry.docker.io")
        with ["service=registry.docker.io"].
      cbn [fold_left].
      change (String.eqb ("scope=" ++ QueryEscape scope) "") with false.
      assert (Hcut : cut "=" ("scope=" ++ QueryEscape scope)
                     = Some ("scope", QueryEscape scope)) by reflexivity.
      rewrite Hcut. unfold default, from_option, id. cbv beta iota.
      change (QueryUnescape "scope") with (Some "scope").
      rewrite QueryUnescape_QueryEscape.
      reflexivity.
    - rewrite memChar_app.
      destruct (QueryEscape_no_separator scope) as [-> _]. reflexivity. }
  split; [reflexivity|]. rewrite Hparse. split; reflexivity.
Qed.

Example authUrl_library_nginx :
  authUrl "library" "nginx"
  = ("https://auth.docker.io/token?scope=repository%3Alibrary%2Fnginx%3Apull&service=registry.docker.io",
     None).
Proof. reflexivity. Qed.

(** *** Substrings and quoting *)

Lemma append_cons (c : ascii) (a b : string) :
  String c a ++ b = String c (a ++ b).
Proof. reflexivity. Qed.

Lemma append_assoc (a b c : string) : (a ++ b) ++ c = a ++ b ++ c.
Proof.
  induction a as [|x a IH]; [reflexivity|].
  rewrite !append_cons. now rewrite IH.
Qed.

Lemma prefix_append (s t : string) : String.prefix s (s ++ t) = true.
Proof.
  induction s as [|c s IH]; [now destruct t|].
  rewrite append_cons. simpl. now destruct (ascii_dec c c).
Qed.

Lemma Contains_unfold (s substr : string) :
  Contains s substr
  = String.prefix substr s
    || match s with
       | EmptyString => false
       | String _ s' => Contains s' substr
       end.
Proof. destruct s; reflexivity. Qed.

(** [strings.Contains] finds every occurrence. *)
Lemma Contains_middle (a s b : string) : Contains (a ++ s ++ b) s = true.
Proof.
  induction a as [|c a IH].
  - change ("" ++ s ++ b) with (s ++ b).
    rewrite Contains_unfold, prefix_append. reflexivity.
  - rewrite append_cons, Contains_unfold, IH. apply orb_true_r.
Qed.

(** [s] occurs in [msg]. *)
Definition occursIn (s msg : string) : Prop :=
  ∃ a b, msg = a ++ s ++ b.

Lemma append_nil_r (a : string) : a ++ "" = a.
Proof.
  induction a as [|x a IH]; [reflexivity|].
  rewrite append_cons. now rewrite IH.
Qed.

Lemma occursIn_here (s : string) : occursIn s s.
Proof. exists EmptyString, EmptyString. now rewrite append_nil_r. Qed.

Lemma occursIn_left (s p msg : string) :
  occursIn s msg → occursIn s (p ++ msg).
Proof.
  intros (a & b & ->). exists (p ++ a), b. now rewrite append_assoc.
Qed.

Lemma occursIn_right (s p msg : string) :
  occursIn s msg → occursIn s (msg ++ p).
Proof.
  intros (a & b & ->). exists a, (b ++ p). now rewrite !append_assoc.
Qed.

Lemma occursIn_cons (s msg : string) (c : ascii) :
  occursIn s msg → occursIn s (String c msg).
Proof. apply (occursIn_left s (String c EmptyString) msg). Qed.

Lemma Contains_occursIn (s msg : string) :
  occursIn s msg → Contains msg s = true.
Proof. intros (a & b & ->). apply Contains_middle. Qed.

(** A byte [Quote] copies as it is: printable ASCII other than the double
    quote and the backslash. *)
Definition plainByte (c : ascii) : bool :=
  inRange " " "~" c && negb (Ascii.eqb c dquote) && negb (Ascii.eqb c "\").

Definition plain (s : string) : bool :=
  forallb plainByte (list_ascii_of_string s).

Lemma quoteLoop_plainByte (isPrintTable : Z → bool) (c : ascii) (s : string) :
  plainByte c = true →
  quoteLoop isPrintTable 0 (String c s)
  = String c (quoteLoop isPrintTable 0 s).
Proof.
  destruct c as [[] [] [] [] [] [] [] []]; intros Hc;
    first [discriminate Hc | reflexivity].
Qed.

Lemma quoteLoop_plain (isPrintTable : Z → bool) (s : string) :
  plain s = true → quoteLoop isPrintTable 0 s = s.
Proof.
  unfold plain. induction s as [|c s IH]; [reflexivity|].
  intros Hs.
  change (plainByte c && forallb plainByte (list_ascii_of_string s) = true)
    in Hs.
  apply andb_prop in Hs as [Hc Hs].
  rewrite (quoteLoop_plainByte _ _ _ Hc), (IH Hs). reflexivity.
Qed.

(** [%q] of a plain string is the string between double quotes. *)
Lemma Quote_plain (isPrintTable : Z → bool) (s : string) :
  plain s = true →
  Quote isPrintTable s = String dquote (s ++ String dquote EmptyString).
Proof. intros Hs. unfold Quote. now rewrite (quoteLoop_plain _ _ Hs). Qed.

(** The double quote and the backslash are written with a backslash before
    them. *)
Lemma quoteLoop_backslashed (isPrintTable : Z → bool) (c : ascii) (s : string) :
  c = dquote ∨ c = "\"%char →
  quoteLoop isPrintTable 0 (String c s)
  = String "\" (String c (quoteLoop isPrintTable 0 s)).
Proof. intros [->| ->]; reflexivity. Qed.

(** *** The exchanges of one [Digest] call *)

Section Exchanges.
Context {lib : GoLib}.
Context {W : Type} (h : Transport W).

Lemma exec_bind {A B : Type} (p : Prog A) (f : A → Prog B) (w : W) :
  exec h (bind p f) w
  = let '(a, exchanges1, w1) := exec h p w in
    let '(b, exchanges2, w2) := exec h (f a) w1 in
    (b, (exchanges1 ++ exchanges2)%list, w2).
Proof.
  revert w. induction p as [a|req k IH]; intros w; simpl.
  - now destruct (exec h (f a) w) as [[b tr] w2].
  - destruct (h req w) as [r w1]. rewrite IH.
    destruct (exec h (k r) w1) as [[a tr1] w2].
    now destruct (exec h (f a) w2) as [[b tr2] w3].
Qed.

(** Whether [getAuthToken] attaches credentials. *)
Definition credentialsSet (c : ManifestClient) : bool :=
  negb (String.eqb (Username (ClientOptions c)) "")
  && negb (String.eqb (Password (ClientOptions c)) "").

(** The request [getAuthToken] hands to [Do]. *)
Definition tokenRequest (c : ManifestClient) (repo image : string)
  : Request.t :=
  {| Request.Method := "GET";
     Request.URL := (authUrl repo image).1;
     Request.Header :=
       if credentialsSet c
       then {[ "Authorization" :=
                 ["Basic " ++ EncodeToString
                    (Username (ClientOptions c) ++ ":"
                     ++ Password (ClientOptions c))] ]}
       else ∅ |}.

(** What [getAuthToken] returns for the transport's answer. *)
Definition tokenResult (r : Response.t + error) : string * option error :=
  match r with
  | inr err => (EmptyString, Some err)
  | inl resp =>
      match Response.Body resp with
      | inr err => (EmptyString, Some err)
      | inl body =>
          if negb (Response.StatusCode resp =? 200)%Z
          then (EmptyString, Some (errorString body))
          else match json_Unmarshal body with
               | inr err => (EmptyString, Some err)
               | inl response => (Token response, None)
               end
      end
  end.

(** The request [Digest] hands to [Do]. *)
Definition manifestRequest (token repo image tag : string) : Request.t :=
  {| Request.Method := "HEAD";
     Request.URL := manifestURL repo image tag;
     Request.Header :=
       {[ "Authorization" := ["Bearer " ++ token];
          "Accept" :=
            [ "application/vnd.docker.distribution.manifest.v2+json";
              "application/vnd.docker.distribution.manifest.list.v2+json";
              "application/vnd.docker.distribution.manifest.v1+json" ] ]} |}.

(** The message of the error [Digest] builds for a status other than 200. *)
Definition manifestErrorMessage (repo image tag : string) (res : Response.t)
  : string :=
  "registry responded to head request to " ++ manifestURL repo image tag
  ++ " with " ++ Quote strconv_isPrintTable (Response.Status res)
  ++ ", auth: "
  ++ Quote strconv_isPrintTable
       (if String.eqb (Header_Get (Response.Header res) "www-authenticate") ""
        then "not present"
        else Header_Get (Response.Header res) "www-authenticate").

(** What [Digest] returns for the transport's answer to the HEAD request. *)
Definition manifestResult (repo image tag : string) (r : Response.t + error)
  : string * option error :=
  match r with
  | inr err =>
      (EmptyString,
       Some (errorString ("failed to get docker manifest: " ++ Error err)))
  | inl res =>
      if negb (Response.StatusCode res =? 200)%Z
      then (EmptyString,
            Some (errorString (manifestErrorMessage repo image tag res)))
      else (Header_Get (Response.Header res) "Docker-Content-Digest", None)
  end.

Lemma exec_getAuthToken (c : ManifestClient) (repo image : string) (w : W) :
  exec h (getAuthToken c repo image) w
  = match url_Parse_error (authUrl repo image).1 with
    | Some err => ((EmptyString, Some err), [], w)
    | None =>
        let '(r, w1) := h (tokenRequest c repo image) w in
        (tokenResult r, [(tokenRequest c repo image, r)], w1)
    end.
Proof.
  unfold getAuthToken, http_NewRequest, tokenRequest.
  destruct (authUrl repo image) as [url e] eqn:E.
  assert (He : e = None) by (unfold authUrl in E; congruence).
  subst e. cbn [fst].
  destruct (url_Parse_error url) as [err|]; [reflexivity|].
  fold (credentialsSet c). cbn [Request.Method Request.URL Request.Header].
  assert (Hreq : (if credentialsSet c
            then {| Request.Method := "GET";
                    Request.URL := url;
                    Request.Header :=
                      Header_Set ∅ "Authorization"
                        ("Basic " ++ EncodeToString
                           (Username (ClientOptions c) ++ ":"
                            ++ Password (ClientOptions c))) |}
            else {| Request.Method := "GET";
                    Request.URL := url;
                    Request.Header := ∅ |})
          = {| Request.Method := "GET";
               Request.URL := url;
               Request.Header :=
                 if credentialsSet c
                 then {[ "Authorization" :=
                           ["Basic " ++ EncodeToString
                              (Username (ClientOptions c) ++ ":"
                               ++ Password (ClientOptions c))] ]}
                 else ∅ |}).
  { destruct (credentialsSet c); [|reflexivity].
    unfold Header_Set.
    change (CanonicalMIMEHeaderKey "Authorization") with "Authorization".
    now rewrite insert_empty. }
  rewrite Hreq. cbn [exec].
  destruct (h _ w) as [[resp|err] w1]; cbn [tokenResult]; [|reflexivity].
  destruct (Response.Body resp) as [body|err]; [|reflexivity].
  destruct (negb (Response.StatusCode resp =? 200)%Z); [reflexivity|].
  destruct (json_Unmarshal body); reflexivity.
Qed.

Lemma manifestRequest_header (token : string) :
  Header_Add
    (Header_Add
       (Header_Add
          (Header_Add ∅ "Authorization" ("Bearer " ++ token))
          "Accept" "application/vnd.docker.distribution.manifest.v2+json")
       "Accept" "application/vnd.docker.distribution.manifest.list.v2+json")
    "Accept" "application/vnd.docker.distribution.manifest.v1+json"
  = {[ "Authorization" := ["Bearer " ++ token];
       "Accept" :=
         [ "application/vnd.docker.distribution.manifest.v2+json";
           "application/vnd.docker.distribution.manifest.list.v2+json";
           "application/vnd.docker.distribution.manifest.v1+json" ] ]}.
Proof.
  unfold Header_Add.
  change (CanonicalMIMEHeaderKey "Authorization") with "Authorization".
  change (CanonicalMIMEHeaderKey "Accept") with "Accept".
  apply map_eq. intros k.
  destruct (decide (k = "Accept")) as [->|Hk];
    [|destruct (decide (k = "Authorization")) as [->|Hk']];
    simplify_map_eq; reflexivity.
Qed.

Lemma exec_Digest (c : ManifestClient) (repo image tag : string) (w : W) :
  exec h (Digest c repo image tag) w
  = match url_Parse_error (authUrl repo image).1 with
    | Some err => ((EmptyString, Some err), [], w)
    | None =>
        let '(r, w1) := h (tokenRequest c repo image) w in
        match tokenResult r with
        | (_, Some err) =>
            ((EmptyString, Some err), [(tokenRequest c repo image, r)], w1)
        | (token, None) =>
            match url_Parse_error (manifestURL repo image tag) with
            | Some err =>
                ((EmptyString, Some err),
                 [(tokenRequest c repo image, r)], w1)
            | None =>
                let '(r2, w2) :=
                  h (manifestRequest token repo image tag) w1 in
                (manifestResult repo image tag r2,
                 [(tokenRequest c repo image, r);
                  (manifestRequest token repo image tag, r2)], w2)
            end
        end
    end.
Proof.
  unfold Digest. rewrite exec_bind, exec_getAuthToken.
  destruct (url_Parse_error (authUrl repo image).1) as [err|];
    [reflexivity|].
  destruct (h (tokenRequest c repo image) w) as [r w1].
  destruct (tokenResult r) as [token [err|]]; [reflexivity|].
  unfold http_NewRequest.
  destruct (url_Parse_error (manifestURL repo image tag)) as [err|];
    [reflexivity|].
  cbn [Request.Method Request.URL Request.Header].
  rewrite manifestRequest_header. fold (manifestRequest token repo image tag).
  cbn [exec].
  destruct (h (manifestRequest token repo image tag) w1) as [[res|err] w2];
    cbn [manifestResult app]; [|reflexivity].
  unfold manifestErrorMessage.
  destruct (negb (Response.StatusCode res =? 200)%Z); reflexivity.
Qed.

(** The answer to the HEAD request decides the result of [Digest]. *)
Lemma Digest_result_of_manifest_response (c : ManifestClient)
  (repo image tag : string) (w : W) (req : Request.t)
  (r : Response.t + error) :
  In (req, r) (exec h (Digest c repo image tag) w).1.2 →
  Request.Method req = "HEAD" →
  (exec h (Digest c repo image tag) w).1.1 = manifestResult repo image tag r.
Proof.
  rewrite exec_Digest. intros Hin Hhead.
  assert (Hget : ∀ r', (req, r) ≠ (tokenRequest c repo image, r')).
  { intros r' Heq. injection Heq as -> _. discriminate Hhead. }
  destruct (url_Parse_error (authUrl repo image).1) as [err|];
    [destruct Hin|].
  destruct (h (tokenRequest c repo image) w) as [r1 w1].
  destruct (tokenResult r1) as [token [err|]].
  { destruct Hin as [Hin|[]]. now destruct (Hget r1). }
  destruct (url_Parse_error (manifestURL repo image tag)) as [err|].
  { destruct Hin as [Hin|[]]. now destruct (Hget r1). }
  destruct (h (manifestRequest token repo image tag) w1) as [r2 w2].
  destruct Hin as [Hin|[Hin|[]]]; [now destruct (Hget r1)|].
  injection Hin as _ ->. reflexivity.
Qed.

(** Every request of a [Digest] call is the token request or the manifest
    request. *)
Lemma Digest_requests (c : ManifestClient) (repo image tag : string) (w : W)
  (req : Request.t) (r : Response.t + error) :
  In (req, r) (exec h (Digest c repo image tag) w).1.2 →
  req = tokenRequest c repo image
  ∨ ∃ token, req = manifestRequest token repo image tag.
Proof.
  rewrite exec_Digest. intros Hin.
  destruct (url_Parse_error (authUrl repo image).1) as [err|];
    [destruct Hin|].
  destruct (h (tokenRequest c repo image) w) as [r1 w1].
  destruct (tokenResult r1) as [token [err|]].
  { destruct Hin as [Hin|[]]. left. congruence. }
  destruct (url_Parse_error (manifestURL repo image tag)) as [err|].
  { destruct Hin as [Hin|[]]. left. congruence. }
  destruct (h (manifestRequest token repo image tag) w1) as [r2 w2].
  destruct Hin as [Hin|[Hin|[]]]; [left; congruence|].
  right. exists token. congruence.
Qed.

(** C5, as the code has it. For a HEAD answer whose status code is not 200,
    [Digest] returns no digest and the error
    [registry responded to head request to <url> with <status>, auth: <auth>],
    where [<status>] is [res.Status] and [<auth>] the [www-authenticate]
    header, or [not present] when the header is absent or empty, both
    printed with [%q]: between double quotes and escaped as Go string
    literals are. So the message holds each value verbatim when it is plain
    (printable ASCII without double quote and backslash), and [not present]
    when there is no such header. *)
Theorem Digest_non200_error (c : ManifestClient) (repo image tag : string)
  (w : W) (req : Request.t) (res : Response.t) :
  In (req, inl res) (exec h (Digest c repo image tag) w).1.2 →
  Request.Method req = "HEAD" →
  Response.StatusCode res ≠ 200%Z →
  let auth := Header_Get (Response.Header res) "www-authenticate" in
  let shown := if String.eqb auth "" then "not present" else auth in
  let msg :=
    "registry responded to head request to " ++ manifestURL repo image tag
    ++ " with " ++ Quote strconv_isPrintTable (Response.Status res)
    ++ ", auth: " ++ Quote strconv_isPrintTable shown in
  (exec h (Digest c repo image tag) w).1.1 = (EmptyString, Some (errorString msg))
  ∧ Contains msg (Quote strconv_isPrintTable (Response.Status res)) = true
  ∧ Contains msg (Quote strconv_isPrintTable shown) = true
  ∧ (plain (Response.Status res) = true →
     Contains msg (Response.Status res) = true)
  ∧ (plain shown = true → Contains msg shown = true)
  ∧ (Response.Header res !! "Www-Authenticate" = None →
     shown = "not present" ∧ Contains msg "not present" = true).
Proof.
  intros Hin Hhead Hcode auth shown msg.
  assert (Hq1 : occursIn (Quote strconv_isPrintTable (Response.Status res)) msg).
  { unfold msg. do 3 apply occursIn_left. apply occursIn_right, occursIn_here. }
  assert (Hq2 : occursIn (Quote strconv_isPrintTable shown) msg).
  { unfold msg. do 5 apply occursIn_left. apply occursIn_here. }
  assert (Hplain : ∀ s, plain s = true →
            occursIn (Quote strconv_isPrintTable s) msg → occursIn s msg).
  { intros s Hs (a & b & ->). rewrite (Quote_plain _ _ Hs).
    apply occursIn_left, occursIn_right, occursIn_cons, occursIn_right,
      occursIn_here. }
  split.
  - rewrite (Digest_result_of_manifest_response c repo image tag w req
               (inl res) Hin Hhead).
    unfold manifestResult.
    apply Z.eqb_neq in Hcode. rewrite Hcode. reflexivity.
  - split; [now apply Contains_occursIn|].
    split; [now apply Contains_occursIn|].
    split; [intros Hs; now apply Contains_occursIn, Hplain|].
    split; [intros Hs; now apply Contains_occursIn, Hplain|].
    intros Habsent.
    assert (Hshown : shown = "not present").
    { unfold shown, auth, Header_Get.
      change (CanonicalMIMEHeaderKey "www-authenticate")
        with "Www-Authenticate".
      now rewrite Habsent. }
    split; [exact Hshown|].
    apply Contains_occursIn, Hplain; [reflexivity|].
    now rewrite <- Hshown.
Qed.

(** C7. For a HEAD answer with status code 200, [Digest] returns the first
    value of the [Docker-Content-Digest] response header and a nil error;
    when the response has no such header it returns the empty string, again
    with a nil error. *)
Theorem Digest_200_digest (c : ManifestClient) (repo image tag : string)
  (w : W) (req : Request.t) (res : Response.t) :
  In (req, inl res) (exec h (Digest c repo image tag) w).1.2 →
  Request.Method req = "HEAD" →
  Response.StatusCode res = 200%Z →
  (exec h (Digest c repo image tag) w).1.1
    = (Header_Get (Response.Header res) "Docker-Content-Digest", None)
  ∧ (∀ value values,
       Response.Header res !! "Docker-Content-Digest" = Some (value :: values) →
       (exec h (Digest c repo image tag) w).1.1 = (value, None))
  ∧ (Response.Header res !! "Docker-Content-Digest" = None →
     (exec h (Digest c repo image tag) w).1.1 = (EmptyString, None)).
Proof.
  intros Hin Hhead Hcode.
  rewrite (Digest_result_of_manifest_response c repo image tag w req
             (inl res) Hin Hhead).
  unfold manifestResult. rewrite Hcode. cbn [Z.eqb Pos.eqb negb].
  unfold Header_Get.
  change (CanonicalMIMEHeaderKey "Docker-Content-Digest")
    with "Docker-Content-Digest".
  split; [reflexivity|]. split.
  - intros value values ->. reflexivity.
  - intros ->. reflexivity.
Qed.

(** C10. Of the requests one [Digest] call sends, the GET to the token
    endpoint carries [Authorization: Basic base64(user:password)] when the
    configured username and password are both non-empty, and no header at
    all when either is empty; the HEAD for the manifest carries exactly one
    [Authorization] value, [Bearer <token>], and never the credentials. *)
Theorem Digest_authorization (c : ManifestClient) (repo image tag : string)
  (w : W) (req : Request.t) (r : Response.t + error) :
  In (req, r) (exec h (Digest c repo image tag) w).1.2 →
  (Request.Method req = "GET"
   ∧ Request.URL req = (authUrl repo image).1
   ∧ (Username (ClientOptions c) ≠ "" ∧ Password (ClientOptions c) ≠ "" →
      Request.Header req
      = {[ "Authorization" :=
             ["Basic " ++ EncodeToString
                (Username (ClientOptions c) ++ ":"
                 ++ Password (ClientOptions c))] ]})
   ∧ (Username (ClientOptions c) = "" ∨ Password (ClientOptions c) = "" →
      Request.Header req = ∅))
  ∨ (Request.Method req = "HEAD"
     ∧ Request.URL req = manifestURL repo image tag
     ∧ ∃ token,
         Request.Header req !! "Authorization" = Some ["Bearer " ++ token]
         ∧ Request.Header req
           = {[ "Authorization" := ["Bearer " ++ token];
                "Accept" :=
                  [ "application/vnd.docker.distribution.manifest.v2+json";
                    "application/vnd.docker.distribution.manifest.list.v2+json";
                    "application/vnd.docker.distribution.manifest.v1+json" ] ]}).
Proof.
  intros Hin.
  destruct (Digest_requests c repo image tag w req r Hin) as [->|[token ->]].
  - left. split; [reflexivity|]. split; [reflexivity|].
    cbn [tokenRequest Request.Header]. unfold credentialsSet. split.
    + intros [Hu Hp].
      apply String.eqb_neq in Hu, Hp. now rewrite Hu, Hp.
    + intros [Hu|Hp].
      * apply String.eqb_eq in Hu. now rewrite Hu.
      * apply String.eqb_eq in Hp. rewrite Hp.
        now rewrite andb_false_r.
  - right. split; [reflexivity|]. split; [reflexivity|].
    exists token. cbn [manifestRequest Request.Header].
    split; [now rewrite lookup_insert_eq | reflexivity].
Qed.

End Exchanges.

(** *** A registry to run the client against *)

Definition tokenPrefix : string :=
  String "{" (String dquote ("token" ++ String dquote
    (String ":" (String dquote EmptyString)))).

Definition tokenSuffix : string := String dquote "}".

(** A decoder for the one body shape the runs below use, an object with the
    single string member [token]. *)
Definition decodeTokenBody (body : string) : AuthResponse + error :=
  let n := String.length body in
  let p := String.length tokenPrefix in
  if String.prefix tokenPrefix body
     && String.eqb (String.substring (n - 2) 2 body) tokenSuffix
     && (p + 2 <=? n)%nat
  then inl {| Token := String.substring p (n - p - 2) body |}
  else inr (errorString "invalid character looking for beginning of value").

(** Every URL of the runs below parses; no rune above Latin-1 occurs. *)
Definition runLib : GoLib :=
  {| strconv_isPrintTable := λ _, false;
     url_Parse_error := λ _, None;
     json_Unmarshal := decodeTokenBody |}.

(** The token endpoint grants a token; the registry answers the HEAD with
    [manifestAnswer]. *)
Definition registry (manifestAnswer : Response.t) : Transport unit :=
  λ req _,
    if String.eqb (Request.Method req) "GET"
    then (inl {| Response.Status := "200 OK";
                 Response.StatusCode := 200;
                 Response.Header := ∅;
                 Response.Body :=
                   inl (tokenPrefix ++ "t0k3n" ++ tokenSuffix) |}, tt)
    else (inl manifestAnswer, tt).

(** The challenge Docker Hub sends with a 401. *)
Definition challenge : string :=
  "Bearer realm=" ++ String dquote ("https://auth.docker.io/token"
  ++ String dquote (",service=" ++ String dquote ("registry.docker.io"
  ++ String dquote EmptyString))).

Definition unauthorized : Response.t :=
  {| Response.Status := "401 Unauthorized";
     Response.StatusCode := 401;
     Response.Header := {[ "Www-Authenticate" := [challenge] ]};
     Response.Body := inl EmptyString |}.

Definition notFound : Response.t :=
  {| Response.Status := "404 Not Found";
     Response.StatusCode := 404;
     Response.Header := ∅;
     Response.Body := inl EmptyString |}.

Definition found : Response.t :=
  {| Response.Status := "200 OK";
     Response.StatusCode := 200;
     Response.Header :=
       {[ "Docker-Content-Digest" :=
            ["sha256:43b90568c315eeae5cbdcd75ef41aa109aef2170bc714443fe3586d565783d18"] ]};
     Response.Body := inl EmptyString |}.

Definition anonymous : ManifestClient :=
  {| ClientOptions := {| Username := ""; Password := "" |} |}.

Definition loggedIn : ManifestClient :=
  {| ClientOptions := {| Username := "user"; Password := "pass" |} |}.

Definition digestOf (c : ManifestClient) (manifestAnswer : Response.t)
  : string * option error * list (Request.t * (Response.t + error)) * unit :=
  exec (registry manifestAnswer)
       (@Digest runLib c "library" "eclipse-mosquitto" "2.0.14") tt.

Example digestOf_found :
  (digestOf anonymous found).1.1
  = ("sha256:43b90568c315eeae5cbdcd75ef41aa109aef2170bc714443fe3586d565783d18",
     None)
  ∧ length (digestOf anonymous found).1.2 = 2%nat.
Proof. split; vm_compute; reflexivity. Qed.

(** C5 as stated fails: Docker Hub's challenge holds double quotes, [%q]
    writes each of them with a backslash before it, and the header value is
    then no substring of the message. *)
Lemma Digest_non200_header_not_verbatim :
  ∃ req msg,
    In (req, inl unauthorized) (digestOf anonymous unauthorized).1.2
    ∧ Request.Method req = "HEAD"
    ∧ Response.StatusCode unauthorized ≠ 200%Z
    ∧ Header_Get (Response.Header unauthorized) "www-authenticate" = challenge
    ∧ (digestOf anonymous unauthorized).1.1
      = (EmptyString, Some (errorString msg))
    ∧ Contains msg challenge = false.
Proof.
  eexists. eexists.
  split; [right; left; vm_compute; reflexivity|].
  split; [reflexivity|].
  split; [discriminate|].
  split; [vm_compute; reflexivity|].
  split; [vm_compute; reflexivity|].
  vm_compute. reflexivity.
Qed.

Lemma Digest_non200_error_witness :
  (digestOf anonymous notFound).1.1
  = (EmptyString,
     Some (errorString
       ("registry responded to head request to "
        ++ "https://registry.hub.docker.com/v2/library/eclipse-mosquitto/manifests/2.0.14"
        ++ " with " ++ String dquote ("404 Not Found" ++ String dquote
        (", auth: " ++ String dquote ("not present"
        ++ String dquote EmptyString))))))
  ∧ Contains
      ("registry responded to head request to "
        ++ "https://registry.hub.docker.com/v2/library/eclipse-mosquitto/manifests/2.0.14"
        ++ " with " ++ String dquote ("404 Not Found" ++ String dquote
        (", auth: " ++ String dquote ("not present"
        ++ String dquote EmptyString))))
      "not present" = true.
Proof.
  assert (Hin : In (manifestRequest "t0k3n" "library" "eclipse-mosquitto"
                      "2.0.14", inl notFound)
                   (digestOf anonymous notFound).1.2)
    by (right; left; vm_compute; reflexivity).
  assert (Hcode : Response.StatusCode notFound ≠ 200%Z) by discriminate.
  destruct (Digest_non200_error (lib := runLib) (registry notFound) anonymous
              "library" "eclipse-mosquitto" "2.0.14" tt _ notFound
              Hin eq_refl Hcode) as (Hres & _ & _ & _ & _ & Habsent).
  split; [exact Hres|].
  exact (proj2 (Habsent eq_refl)).
Defined.

Lemma Digest_200_digest_witness :
  (digestOf anonymous found).1.1
  = ("sha256:43b90568c315eeae5cbdcd75ef41aa109aef2170bc714443fe3586d565783d18",
     None)
  ∧ (digestOf anonymous notFound).1.2 ≠ [].
Proof.
  assert (Hin : In (manifestRequest "t0k3n" "library" "eclipse-mosquitto"
                      "2.0.14", inl found)
                   (digestOf anonymous found).1.2)
    by (right; left; vm_compute; reflexivity).
  destruct (Digest_200_digest (lib := runLib) (registry found) anonymous
              "library" "eclipse-mosquitto" "2.0.14" tt _ found
              Hin eq_refl eq_refl) as (_ & Hvalue & _).
  split; [|discriminate].
  exact (Hvalue _ [] eq_refl).
Defined.

Lemma Digest_authorization_witness :
  Request.Header (tokenRequest loggedIn "library" "eclipse-mosquitto")
  = {[ "Authorization" := ["Basic dXNlcjpwYXNz"] ]}.
Proof.
  assert (Hin : In (tokenRequest loggedIn "library" "eclipse-mosquitto",
                    (registry found
                       (tokenRequest loggedIn "library" "eclipse-mosquitto")
                       tt).1)
                   (digestOf loggedIn found).1.2)
    by (left; vm_compute; reflexivity).
  destruct (Digest_authorization (lib := runLib) (registry found) loggedIn
              "library" "eclipse-mosquitto" "2.0.14" tt _ _ Hin)
    as [(_ & _ & Hboth & _)|(Hhead & _)]; [|discriminate Hhead].
  apply Hboth. split; discriminate.
Defined.

(** *** What a [Digest] call sends, and what it returns on failure *)

Section Outcomes.
Context {lib : GoLib}.
Context {W : Type} (h : Transport W).

Lemma tokenResult_granted (r : Response.t + error) (token : string) :
  tokenResult r = (token, None) →
  ∃ resp body response,
    r = inl resp ∧ Response.Body resp = inl body
    ∧ Response.StatusCode resp = 200%Z
    ∧ json_Unmarshal body = inl response ∧ token = Token response.
Proof.
  unfold tokenResult. destruct r as [resp|err]; [|discriminate].
  destruct (Response.Body resp) as [body|err] eqn:Hbody; [|discriminate].
  destruct (Response.StatusCode resp =? 200)%Z eqn:Hcode; [|discriminate].
  destruct (json_Unmarshal body) as [response|err] eqn:Hjson; [|discriminate].
  simpl. intros [= <-]. exists resp, body, response.
  apply Z.eqb_eq in Hcode. auto.
Qed.

(** X8. One [Digest] call sends at most two requests and repeats none: the
    first is the GET for the token; a second one is the HEAD for the
    manifest, and it is sent only after the token endpoint answered 200 with
    a body that decodes, carrying the decoded token as its bearer token. *)
Theorem Digest_exchanges_shape (c : ManifestClient) (repo image tag : string)
  (w : W) :
  let exchanges := (exec h (Digest c repo image tag) w).1.2 in
  (length exchanges ≤ 2)%nat
  ∧ (∀ req r, exchanges !! 0%nat = Some (req, r) →
       Request.Method req = "GET"
       ∧ Request.URL req = (authUrl repo image).1)
  ∧ (∀ req r, exchanges !! 1%nat = Some (req, r) →
       Request.Method req = "HEAD"
       ∧ Request.URL req = manifestURL repo image tag
       ∧ ∃ req0 resp body response,
           exchanges !! 0%nat = Some (req0, inl resp)
           ∧ Response.StatusCode resp = 200%Z
           ∧ Response.Body resp = inl body
           ∧ json_Unmarshal body = inl response
           ∧ Request.Header req !! "Authorization"
             = Some ["Bearer " ++ Token response]).
Proof.
  intros exchanges. subst exchanges. rewrite exec_Digest.
  destruct (url_Parse_error (authUrl repo image).1) as [err|].
  { simpl. split; [lia|]. split; intros req r Hl; discriminate Hl. }
  destruct (h (tokenRequest c repo image) w) as [r1 w1].
  destruct (tokenResult r1) as [token [err|]] eqn:Htoken.
  { simpl. split; [lia|]. split; intros req r Hl; [|discriminate Hl].
    injection Hl as <- _. now split. }
  destruct (url_Parse_error (manifestURL repo image tag)) as [err|].
  { simpl. split; [lia|]. split; intros req r Hl; [|discriminate Hl].
    injection Hl as <- _. now split. }
  destruct (h (manifestRequest token repo image tag) w1) as [r2 w2].
  simpl. split; [lia|]. split; intros req r Hl.
  - injection Hl as <- _. now split.
  - injection Hl as <- _. split; [reflexivity|]. split; [reflexivity|].
    destruct (tokenResult_granted r1 token Htoken)
      as (resp & body & response & -> & Hbody & Hcode & Hjson & ->).
    exists (tokenRequest c repo image), resp, body, response.
    split; [reflexivity|]. split; [exact Hcode|]. split; [exact Hbody|].
    split; [exact Hjson|].
    cbn [manifestRequest Request.Header]. now rewrite lookup_insert_eq.
Qed.

(** X9. A [Digest] call that returns an error returns the empty string as
    the digest, on every path; and with no request answered there is an
    error. *)
Theorem Digest_error_has_no_digest (c : ManifestClient)
  (repo image tag : string) (w : W) :
  let out := exec h (Digest c repo image tag) w in
  (out.1.1.2 = None ∨ out.1.1.1 = EmptyString)
  ∧ (out.1.2 = [] → out.1.1.2 ≠ None).
Proof.
  intros out. subst out. rewrite exec_Digest.
  destruct (url_Parse_error (authUrl repo image).1) as [err|].
  { simpl. split; [now right|discriminate]. }
  destruct (h (tokenRequest c repo image) w) as [r1 w1].
  destruct (tokenResult r1) as [token [err|]].
  { simpl. split; [now right|discriminate]. }
  destruct (url_Parse_error (manifestURL repo image tag)) as [err|].
  { simpl. split; [now right|discriminate]. }
  destruct (h (manifestRequest token repo image tag) w1) as [[res|err] w2];
    simpl; (split; [|discriminate]); [|now right].
  destruct (negb (Response.StatusCode res =? 200)%Z); simpl;
    [now right|now left].
Qed.

(** X10. When the token request fails, [Digest] stops there: one request
    was sent, no HEAD. A transport error and an error reading the body are
    returned as they are; a status other than 200 gives an error whose
    message is the response body; a body that does not decode gives the
    decoder's error. *)
Theorem Digest_token_failure (c : ManifestClient) (repo image tag : string)
  (w : W) (req : Request.t) (r : Response.t + error) :
  In (req, r) (exec h (Digest c repo image tag) w).1.2 →
  Request.Method req = "GET" →
  let out := exec h (Digest c repo image tag) w in
  (∀ err, r = inr err →
     out.1.1 = (EmptyString, Some err) ∧ out.1.2 = [(req, r)])
  ∧ (∀ resp err, r = inl resp → Response.Body resp = inr err →
       out.1.1 = (EmptyString, Some err) ∧ out.1.2 = [(req, r)])
  ∧ (∀ resp body, r = inl resp → Response.Body resp = inl body →
       Response.StatusCode resp ≠ 200%Z →
       out.1.1 = (EmptyString, Some (errorString body))
       ∧ out.1.2 = [(req, r)])
  ∧ (∀ resp body err, r = inl resp → Response.Body resp = inl body →
       Response.StatusCode resp = 200%Z → json_Unmarshal body = inr err →
       out.1.1 = (EmptyString, Some err) ∧ out.1.2 = [(req, r)]).
Proof.
  intros Hin Hget out. subst out.
  assert (Hfail : ∀ d e, tokenResult r = (d, Some e) →
            (exec h (Digest c repo image tag) w).1.1 = (EmptyString, Some e)
            ∧ (exec h (Digest c repo image tag) w).1.2 = [(req, r)]).
  { intros d e He. revert Hin. rewrite exec_Digest.
    destruct (url_Parse_error (authUrl repo image).1) as [err0|];
      [intros []|].
    destruct (h (tokenRequest c repo image) w) as [r1 w1].
    destruct (tokenResult r1) as [token [err|]] eqn:Htoken.
    - intros [Hin|[]]. injection Hin as <- <-.
      rewrite Htoken in He. injection He as _ <-. now split.
    - destruct (url_Parse_error (manifestURL repo image tag)) as [err|].
      + intros [Hin|[]]. injection Hin as _ <-. congruence.
      + destruct (h (manifestRequest token repo image tag) w1) as [r2 w2].
        intros [Hin|[Hin|[]]].
        * injection Hin as _ <-. congruence.
        * injection Hin as <- _. discriminate Hget. }
  split; [|split; [|split]].
  - intros err ->. now apply (Hfail EmptyString).
  - intros resp err -> Hbody. apply (Hfail EmptyString).
    simpl. now rewrite Hbody.
  - intros resp body -> Hbody Hcode. apply (Hfail EmptyString).
    apply Z.eqb_neq in Hcode. simpl. now rewrite Hbody, Hcode.
  - intros resp body err -> Hbody Hcode Hjson. apply (Hfail EmptyString).
    simpl. now rewrite Hbody, Hcode, Hjson.
Qed.

(** X11. When the transport fails on the HEAD request, [Digest] returns
    no digest and a new error whose message is
    [failed to get docker manifest: ] followed by the transport error's
    message (a transport failure on the token request is returned as it
    is). *)
Theorem Digest_manifest_transport_failure (c : ManifestClient)
  (repo image tag : string) (w : W) (req : Request.t) (err : error) :
  In (req, inr err) (exec h (Digest c repo image tag) w).1.2 →
  Request.Method req = "HEAD" →
  (exec h (Digest c repo image tag) w).1.1
    = (EmptyString,
       Some (errorString ("failed to get docker manifest: " ++ Error err)))
  ∧ Contains ("failed to get docker manifest: " ++ Error err) (Error err)
    = true
  ∧ length (exec h (Digest c repo image tag) w).1.2 = 2%nat.
Proof.
  intros Hin Hhead.
  split; [|split].
  - now rewrite (Digest_result_of_manifest_response h c repo image tag w req
                   (inr err) Hin Hhead).
  - apply Contains_occursIn, occursIn_left, occursIn_here.
  - revert Hin. rewrite exec_Digest.
    assert (Hget : ∀ r', (req, @inr Response.t error err)
                         ≠ (tokenRequest c repo image, r')).
    { intros r' Heq. injection Heq as -> _. discriminate Hhead. }
    destruct (url_Parse_error (authUrl repo image).1) as [err0|];
      [intros []|].
    destruct (h (tokenRequest c repo image) w) as [r1 w1].
    destruct (tokenResult r1) as [token [err1|]].
    { intros [Hin|[]]. now destruct (Hget r1). }
    destruct (url_Parse_error (manifestURL repo image tag)) as [err1|].
    { intros [Hin|[]]. now destruct (Hget r1). }
    now destruct (h (manifestRequest token repo image tag) w1) as [r2 w2].
Qed.

End Outcomes.

Section Names.
Context {lib : GoLib}.

(** X12. [Digest] sees the repository and the image only joined by ["/"]:
    two (repo, image) pairs with the same joined name, such as
    [("a/b", "c")] and [("a", "b/c")], give the same computation, the same
    requests and the same result against every registry. *)
Theorem Digest_depends_on_joined_name (c : ManifestClient)
  (repo1 image1 repo2 image2 tag : string) :
  repo1 ++ "/" ++ image1 = repo2 ++ "/" ++ image2 →
  Digest c repo1 image1 tag = Digest c repo2 image2 tag.
Proof.
  intros Hjoin.
  assert (Hsuffix : ∀ s, repo1 ++ "/" ++ image1 ++ s
                         = repo2 ++ "/" ++ image2 ++ s).
  { intros s0.
    rewrite <- (append_assoc "/" image1 s0), <- (append_assoc repo1 _ s0).
    rewrite <- (append_assoc "/" image2 s0), <- (append_assoc repo2 _ s0).
    now rewrite Hjoin. }
  assert (Hauth : authUrl repo1 image1 = authUrl repo2 image2).
  { unfold authUrl. now rewrite (Hsuffix ":pull"). }
  assert (Hman : manifestURL repo1 image1 tag = manifestURL repo2 image2 tag).
  { unfold manifestURL. now rewrite (Hsuffix ("/manifests/" ++ tag)). }
  unfold Digest, getAuthToken. now rewrite Hauth, Hman.
Qed.

(** X13. The credentials reach the token endpoint only as
    [base64(username:password)]: a username [u:p] with password [q] and a
    username [u] with password [p:q] give the same computation, so the
    same [Authorization] header and the same result. *)
Theorem Digest_colon_in_username (u p q repo image tag : string) :
  u ≠ "" → q ≠ "" →
  Digest {| ClientOptions :=
              {| Username := u ++ ":" ++ p; Password := q |} |}
         repo image tag
  = Digest {| ClientOptions :=
                {| Username := u; Password := p ++ ":" ++ q |} |}
           repo image tag.
Proof.
  intros Hu Hq. unfold Digest, getAuthToken. cbn [ClientOptions Username Password].
  apply String.eqb_neq in Hu, Hq.
  assert (Hup : String.eqb (u ++ ":" ++ p) "" = false)
    by (destruct u; [discriminate Hu|reflexivity]).
  assert (Hpq : String.eqb (p ++ ":" ++ q) "" = false)
    by (destruct p; reflexivity).
  rewrite Hu, Hq, Hup, Hpq.
  now rewrite (append_assoc u (":" ++ p) (":" ++ q)), (append_assoc ":" p _).
Qed.

End Names.

(** A token endpoint that refuses, and a registry that cannot be reached
    after the token was granted. *)
Definition tokenDenied : Transport unit :=
  λ req _,
    (inl {| Response.Status := "401 Unauthorized";
            Response.StatusCode := 401;
            Response.Header := ∅;
            Response.Body := inl "incorrect username or password" |}, tt).

Definition registryDown : Transport unit :=
  λ req _,
    if String.eqb (Request.Method req) "GET"
    then registry notFound req tt
    else (inr (errorString "context deadline exceeded"), tt).

Lemma Digest_token_failure_witness :
  (exec tokenDenied
        (@Digest runLib loggedIn "library" "eclipse-mosquitto" "2.0.14")
        tt).1.1
  = (EmptyString, Some (errorString "incorrect username or password")).
Proof.
  assert (Hin : In (tokenRequest loggedIn "library" "eclipse-mosquitto",
                    (tokenDenied
                       (tokenRequest loggedIn "library" "eclipse-mosquitto")
                       tt).1)
                   (exec tokenDenied
                      (@Digest runLib loggedIn "library" "eclipse-mosquitto"
                         "2.0.14") tt).1.2)
    by (left; vm_compute; reflexivity).
  destruct (Digest_token_failure (lib := runLib) tokenDenied loggedIn
              "library" "eclipse-mosquitto" "2.0.14" tt _ _ Hin eq_refl)
    as (_ & _ & Hstatus & _).
  refine (proj1 (Hstatus _ "incorrect username or password" eq_refl eq_refl _)).
  discriminate.
Defined.

Lemma Digest_manifest_transport_failure_witness :
  (exec registryDown
        (@Digest runLib anonymous "library" "eclipse-mosquitto" "2.0.14")
        tt).1.1
  = (EmptyString,
     Some (errorString
             "failed to get docker manifest: context deadline exceeded")).
Proof.
  assert (Hin : In (manifestRequest "t0k3n" "library" "eclipse-mosquitto"
                      "2.0.14",
                    inr (errorString "context deadline exceeded"))
                   (exec registryDown
                      (@Digest runLib anonymous "library" "eclipse-mosquitto"
                         "2.0.14") tt).1.2)
    by (right; left; vm_compute; reflexivity).
  exact (proj1 (Digest_manifest_transport_failure (lib := runLib) registryDown
                  anonymous "library" "eclipse-mosquitto" "2.0.14" tt _ _
                  Hin eq_refl)).
Defined.

Lemma Digest_depends_on_joined_name_witness :
  @Digest runLib anonymous "jetstack/tools" "checker" "v1"
  = @Digest runLib anonymous "jetstack" "tools/checker" "v1".
Proof.
  apply (Digest_depends_on_joined_name (lib := runLib) anonymous
           "jetstack/tools" "checker" "jetstack" "tools/checker" "v1").
  reflexivity.
Defined.

Lemma Digest_colon_in_username_witness :
  @Digest runLib {| ClientOptions :=
                      {| Username := "ci:bot"; Password := "s3cret" |} |}
          "library" "nginx" "latest"
  = @Digest runLib {| ClientOptions :=
                        {| Username := "ci"; Password := "bot:s3cret" |} |}
            "library" "nginx" "latest".
Proof.
  apply (Digest_colon_in_username (lib := runLib) "ci" "bot" "s3cret"
           "library" "nginx" "latest"); discriminate.
Defined.

Lemma Digest_exchanges_shape_witness :
  ∃ req,
    (digestOf loggedIn found).1.2 !! 1%nat = Some (req, inl found)
    ∧ Request.Method req = "HEAD"
    ∧ Request.URL req
      = "https://registry.hub.docker.com/v2/library/eclipse-mosquitto/manifests/2.0.14".
Proof.
  exists (manifestRequest "t0k3n" "library" "eclipse-mosquitto" "2.0.14").
  assert (Hl : (digestOf loggedIn found).1.2 !! 1%nat
               = Some (manifestRequest "t0k3n" "library" "eclipse-mosquitto"
                         "2.0.14", inl found))
    by (vm_compute; reflexivity).
  split; [exact Hl|].
  destruct (Digest_exchanges_shape (lib := runLib) (registry found) loggedIn
              "library" "eclipse-mosquitto" "2.0.14" tt) as (_ & _ & Hhead).
  destruct (Hhead _ _ Hl) as (Hm & Hu & _).
  split; [exact Hm|exact Hu].
Defined.

Lemma Digest_error_has_no_digest_witness :
  (digestOf anonymous unauthorized).1.1.2 ≠ None
  ∧ (digestOf anonymous unauthorized).1.1.1 = EmptyString.
Proof.
  assert (Herr : (digestOf anonymous unauthorized).1.1.2 ≠ None)
    by (vm_compute; discriminate).
  split; [exact Herr|].
  destruct (proj1 (Digest_error_has_no_digest (lib := runLib)
                     (registry unauthorized) anonymous
                     "library" "eclipse-mosquitto" "2.0.14" tt))
    as [Hnone|Hempty]; [now destruct Herr|exact Hempty].
Defined.

End DockerFacts.

(* ===================================================================== *)
(** ** Properties of package util *)
(* ===================================================================== *)

Module UtilFacts.
Import GoStrings Util.

Lemma length_zero (s : string) : (String.length s =? 0)%nat = true ↔ s = "".
Proof. destruct s; simpl; split; intros H; congruence. Qed.

Lemma JoinRepoImage_nonempty (repo image : string) :
  JoinRepoImage repo image = "" ↔ repo = "" ∧ image = "".
Proof.
  unfold JoinRepoImage. destruct repo as [|c repo], image as [|d image];
    simpl; split; try (intros [? ?]); try congruence; try discriminate.
  - now split.
Qed.

(** X14. [JoinRepoImage] is a monoid on names with the empty name as unit:
    joining with an empty side gives the other side, without a slash;
    joining is associative; and the result is empty only when both sides
    are. *)
Theorem JoinRepoImage_monoid (a b c : string) :
  JoinRepoImage "" a = a
  ∧ JoinRepoImage a "" = a
  ∧ JoinRepoImage (JoinRepoImage a b) c = JoinRepoImage a (JoinRepoImage b c)
  ∧ (JoinRepoImage a b = "" ↔ a = "" ∧ b = "").
Proof.
  split; [reflexivity|]. split; [now destruct a|].
  split; [|apply JoinRepoImage_nonempty].
  destruct a as [|x a]; [reflexivity|].
  destruct b as [|y b]; [reflexivity|].
  destruct c as [|z c]; [reflexivity|].
  unfold JoinRepoImage. cbn [String.length Nat.eqb].
  change ((String x a ++ "/" ++ String y b))
    with (String x (a ++ "/" ++ String y b)).
  change (String y b ++ "/" ++ String z c)
    with (String y (b ++ "/" ++ String z c)).
  cbn [String.length Nat.eqb].
  change (String x (a ++ "/" ++ String y b))
    with (String x a ++ "/" ++ String y b).
  change (String y (b ++ "/" ++ String z c))
    with (String y b ++ "/" ++ String z c).
  now rewrite DockerFacts.append_assoc, (DockerFacts.append_assoc "/").
Qed.

Lemma cut_append (sep : ascii) (a b : string) :
  memChar sep a = false → cut sep (a ++ String sep b) = Some (a, b).
Proof.
  induction a as [|c a IH]; simpl.
  - intros _. now rewrite Ascii.eqb_refl.
  - rewrite Ascii.eqb_sym. intros Hc. apply orb_false_elim in Hc as [Hc Ha].
    now rewrite Hc, (IH Ha).
Qed.

(** X15. A repository without a slash and a non-empty image can be read
    back from their joined name: it is cut at its first ["/"] into the
    two. *)
Theorem JoinRepoImage_cut (repo image : string) :
  repo ≠ "" → image ≠ "" → memChar "/" repo = false →
  cut "/" (JoinRepoImage repo image) = Some (repo, image).
Proof.
  intros Hr Hi Hslash. unfold JoinRepoImage.
  destruct repo as [|x repo]; [done|]. destruct image as [|y image]; [done|].
  cbn [String.length Nat.eqb].
  now apply (cut_append "/" (String x repo) (String y image)).
Qed.

Lemma JoinRepoImage_cut_witness :
  cut "/" (JoinRepoImage "library" "eclipse-mosquitto")
  = Some ("library", "eclipse-mosquitto").
Proof.
  apply (JoinRepoImage_cut "library" "eclipse-mosquitto");
    [discriminate|discriminate|reflexivity].
Defined.

(** *** [OSArchFromTag] *)

Section Tags.
Variable toLowerTable : Z → Z.

(** The inner loops: the last entry of the table equal to [ss], or what was
    there before. *)
Definition pick (table : list string) (ss cur : string) : string :=
  fold_left (λ cur p, if String.eqb p ss then p else cur) table cur.

(** The body of the outer loop, on a piece that is already in lower case. *)
Definition stepLower (state : string * string) (ss : string)
  : string * string :=
  (pick oss ss state.1, pick archs ss state.2).

Lemma pick_spec (table : list string) (ss cur : string) :
  pick table ss cur = if existsb (String.eqb ss) table then ss else cur.
Proof.
  unfold pick. revert cur. induction table as [|p table IH]; intros cur;
    [reflexivity|].
  simpl. rewrite IH, (String.eqb_sym ss p).
  destruct (String.eqb p ss) eqn:Hp; simpl; [|reflexivity].
  apply String.eqb_eq in Hp as ->. now destruct (existsb _ table).
Qed.

Lemma OSArchFromTag_pieces (tag : string) :
  OSArchFromTag toLowerTable tag
  = fold_left stepLower (map (ToLower toLowerTable) (splitOn "-" tag))
              (EmptyString, EmptyString).
Proof.
  unfold OSArchFromTag.
  generalize (EmptyString, EmptyString).
  induction (splitOn "-" tag) as [|piece pieces IH]; intros state;
    [reflexivity|].
  simpl. rewrite <- IH. now destruct state.
Qed.

Lemma existsb_eqb_In (ss : string) (table : list string) :
  existsb (String.eqb ss) table = true → In ss table.
Proof.
  intros Hex. apply existsb_exists in Hex as (p & Hp & Heq).
  now apply String.eqb_eq in Heq as ->.
Qed.

(** X16. The OS [OSArchFromTag] returns is empty or one of the four known
    names, the architecture is empty or one of the fifteen, and a name that
    is returned is the lower-case form of one of the pieces of the tag
    between dashes. *)
Theorem OSArchFromTag_from_tables (tag : string) :
  let found (table : list string) (name : string) : Prop :=
    name = "" ∨ (In name table
                 ∧ ∃ piece, In piece (splitOn "-" tag)
                            ∧ ToLower toLowerTable piece = name) in
  found oss (OSArchFromTag toLowerTable tag).1
  ∧ found archs (OSArchFromTag toLowerTable tag).2.
Proof.
  intros found. rewrite OSArchFromTag_pieces.
  assert (Hinv : ∀ pieces state,
            (∀ piece, In piece pieces → In piece (splitOn "-" tag)) →
            found oss state.1 ∧ found archs state.2 →
            found oss (fold_left stepLower
                         (map (ToLower toLowerTable) pieces) state).1
            ∧ found archs (fold_left stepLower
                             (map (ToLower toLowerTable) pieces) state).2).
  { induction pieces as [|piece pieces IH]; intros state Hsub Hstate;
      [exact Hstate|].
    cbn [map fold_left]. apply IH; [intros q Hq; apply Hsub; now right|].
    destruct Hstate as [Hos Harch]. unfold stepLower; cbn [fst snd].
    rewrite !pick_spec. split.
    - destruct (existsb _ oss) eqn:Hex; [|exact Hos].
      right. split; [now apply existsb_eqb_In|].
      exists piece. split; [apply Hsub; now left|reflexivity].
    - destruct (existsb _ archs) eqn:Hex; [|exact Harch].
      right. split; [now apply existsb_eqb_In|].
      exists piece. split; [apply Hsub; now left|reflexivity]. }
  apply Hinv; [auto|]. split; now left.
Qed.

Lemma splitOn_nonempty (sep : ascii) (s : string) : splitOn sep s ≠ [].
Proof.
  induction s as [|c s IH]; simpl; [discriminate|].
  destruct (Ascii.eqb c sep); [discriminate|].
  now destruct (splitOn sep s).
Qed.

Lemma splitOn_append (sep : ascii) (a b : string) :
  splitOn sep (a ++ String sep b) = (splitOn sep a ++ splitOn sep b)%list.
Proof.
  induction a as [|c a IH].
  - simpl. now rewrite Ascii.eqb_refl.
  - rewrite DockerFacts.append_cons. simpl.
    destruct (Ascii.eqb c sep); [now rewrite IH|].
    rewrite IH. pose proof (splitOn_nonempty sep a) as Hne.
    now destruct (splitOn sep a).
Qed.

(** X17. The last piece wins: a tag extended by a dash and one of the known
    OS names has that OS and keeps its architecture; extended by a dash and
    one of the known architecture names it has that architecture and keeps
    its OS. *)
Theorem OSArchFromTag_last_piece (tag name : string) :
  (In name oss →
   OSArchFromTag toLowerTable (tag ++ "-" ++ name)
   = (name, (OSArchFromTag toLowerTable tag).2))
  ∧ (In name archs →
     OSArchFromTag toLowerTable (tag ++ "-" ++ name)
     = ((OSArchFromTag toLowerTable tag).1, name)).
Proof.
  assert (Hstep : splitOn "-" name = [name] →
            OSArchFromTag toLowerTable (tag ++ "-" ++ name)
            = stepLower (OSArchFromTag toLowerTable tag)
                        (ToLower toLowerTable name)).
  { intros Hname. rewrite !OSArchFromTag_pieces.
    change (tag ++ "-" ++ name) with (tag ++ String "-" name).
    now rewrite splitOn_append, Hname, map_app, fold_left_app. }
  split; intros Hin; simpl in Hin;
    repeat (destruct Hin as [<-|Hin]); try contradiction;
    (rewrite Hstep by reflexivity); unfold stepLower; rewrite !pick_spec;
    reflexivity.
Qed.

(** *** Upper and lower case *)

Definition isASCII (s : string) : bool :=
  forallb (λ c, (byteZ c <? 0x80)%Z) (list_ascii_of_string s).

Lemma lowerBytes_no_upper (s : string) :
  existsb (inRange "A" "Z") (list_ascii_of_string s) = false →
  lowerBytes s = s.
Proof.
  induction s as [|c s IH]; [reflexivity|].
  simpl. intros Hs. apply orb_false_elim in Hs as [Hc Hs].
  unfold toLower. now rewrite Hc, (IH Hs).
Qed.

Lemma ToLower_ascii (s : string) :
  isASCII s = true → ToLower toLowerTable s = lowerBytes s.
Proof.
  unfold isASCII, ToLower. intros ->.
  destruct (existsb _ _) eqn:Hup; [reflexivity|].
  symmetry. now apply lowerBytes_no_upper.
Qed.

Lemma toLower_dash (c : ascii) : Ascii.eqb (toLower c) "-" = Ascii.eqb c "-".
Proof. destruct c as [[] [] [] [] [] [] [] []]; reflexivity. Qed.

Lemma splitOn_lowerBytes (s : string) :
  splitOn "-" (lowerBytes s) = map lowerBytes (splitOn "-" s).
Proof.
  induction s as [|c s IH]; [reflexivity|].
  simpl. rewrite toLower_dash, IH.
  destruct (Ascii.eqb c "-"); [reflexivity|].
  pose proof (splitOn_nonempty "-" s) as Hne.
  now destruct (splitOn "-" s).
Qed.

Lemma splitOn_isASCII (s : string) :
  isASCII s = true → Forall (λ piece, isASCII piece = true) (splitOn "-" s).
Proof.
  unfold isASCII. induction s as [|c s IH]; simpl; intros Hs.
  - now constructor.
  - apply andb_prop in Hs as [Hc Hs]. specialize (IH Hs).
    destruct (Ascii.eqb c "-").
    + now constructor.
    + pose proof (splitOn_nonempty "-" s) as Hne.
      destruct (splitOn "-" s) as [|piece pieces]; [done|].
      inversion IH as [|? ? Hp Hps]; subst. constructor; [|exact Hps].
      simpl. now rewrite Hc, Hp.
Qed.

Lemma lowered_pieces (tag : string) :
  isASCII tag = true →
  map (ToLower toLowerTable) (splitOn "-" tag)
  = splitOn "-" (ToLower toLowerTable tag).
Proof.
  intros Htag. rewrite (ToLower_ascii tag Htag), splitOn_lowerBytes.
  pose proof (splitOn_isASCII tag Htag) as Hpieces.
  induction Hpieces as [|piece pieces Hp _ IH]; [reflexivity|].
  simpl. now rewrite (ToLower_ascii piece Hp), IH.
Qed.

(** X18. For ASCII tags the result does not depend on letter case: two
    ASCII tags with the same lower-case form have the same OS and
    architecture. *)
Theorem OSArchFromTag_ignores_case (tag1 tag2 : string) :
  isASCII tag1 = true → isASCII tag2 = true →
  ToLower toLowerTable tag1 = ToLower toLowerTable tag2 →
  OSArchFromTag toLowerTable tag1 = OSArchFromTag toLowerTable tag2.
Proof.
  intros H1 H2 Heq.
  now rewrite !OSArchFromTag_pieces, (lowered_pieces tag1 H1),
    (lowered_pieces tag2 H2), Heq.
Qed.

End Tags.

Lemma OSArchFromTag_last_piece_witness :
  OSArchFromTag (λ r, r) "1.21-alpine-arm64-windows"
  = ("windows", (OSArchFromTag (λ r, r) "1.21-alpine-arm64").2)
  ∧ (OSArchFromTag (λ r, r) "1.21-alpine-arm64").2 = "arm64".
Proof.
  split; [|reflexivity].
  refine (proj1 (OSArchFromTag_last_piece (λ r, r) "1.21-alpine-arm64"
                   "windows") _).
  right; right; left; reflexivity.
Defined.

Lemma OSArchFromTag_ignores_case_witness :
  OSArchFromTag (λ r, r) "2.0.14-Linux-ARM64"
  = OSArchFromTag (λ r, r) "2.0.14-linux-arm64"
  ∧ OSArchFromTag (λ r, r) "2.0.14-linux-arm64" = ("linux", "arm64").
Proof.
  split; [|reflexivity].
  apply (OSArchFromTag_ignores_case (λ r, r) "2.0.14-Linux-ARM64"
           "2.0.14-linux-arm64"); reflexivity.
Defined.

End UtilFacts.
